(** * Shallow embedding of [tools.py] (yangzl-language-model-keras)

    The corpus-to-batch pipeline of the word-level language model:
    directory scan, newline splitting, input/output pair generation,
    padding, one-hot encoding, the memory-ceiling guard and the infinite
    batch generator; plus the curve-plotting helper. *)

From Stdlib Require Import Ascii String Arith Lia Bool ZArith QArith List.
Import ListNotations.

Open Scope nat_scope.

(** ** Configuration: the [parameters] module *)

Record parameters := {
  BATCH_SAMPLES_NUMBER : nat;
  Y_MEMORY_SIZE_THRESHOLD_GB : Q;
}.

(** ** Memory estimator *)

(** A non-negative integer rounded to the nearest double: to 53 significant
    bits, ties to even.  [e] is the number of low bits dropped, [q] the kept
    significand and [r] the dropped remainder. *)
Definition round_nonneg (a : Z) : Z :=
  let e := (Z.log2 a - 52)%Z in
  if (e <=? 0)%Z then a
  else
    let q := (a / 2 ^ e)%Z in
    let r := (a mod 2 ^ e)%Z in
    let half := (2 ^ (e - 1))%Z in
    let q' := if (half <? r)%Z || ((r =? half)%Z && Z.odd q)
              then (q + 1)%Z else q in
    (q' * 2 ^ e)%Z.

Definition round_to_double (n : Z) : Z := (Z.sgn n * round_nonneg (Z.abs n))%Z.

(** [byte_to_gb]: [byte_number / (1024 ** 3)].  Python's int/int true
    division returns the double nearest to the exact quotient; dividing by
    a power of two is exact on doubles (no underflow for a non-zero
    integer), so the result is [byte_number] rounded to a double, divided by
    [2^30].  A quotient beyond the double range (byte counts from about
    [2^1054] on) makes Python raise OverflowError; the model is meant for
    counts below that. *)
Definition byte_to_gb (byte_number : Z) : Q :=
  inject_Z (round_to_double byte_number) / inject_Z (1024 ^ 3).

(** [get_array_memory_size]: [element_number] is the running product of the
    shape, starting from 1. *)
Definition get_array_memory_size (array_shape : list Z) (item_size : Z) : Q :=
  let element_number := fold_left Z.mul array_shape 1%Z in
  byte_to_gb (element_number * item_size).

(** ** Filesystem scanner *)

Definition document := list ascii.

(** A read-only view of the filesystem: [os.listdir] and [os.path.isdir]. *)
Record filesystem := {
  listdir : string -> list string;
  isdir : string -> bool;
}.

(** [os.path.join(path, name)] on POSIX for two components. *)
Definition path_join (path name : string) : string :=
  if String.prefix "/" name then name
  else if String.eqb path "" then name
  else if String.eqb (substring (String.length path - 1) 1 path) "/"
       then (path ++ name)%string
       else (path ++ "/" ++ name)%string.

Definition get_filenames_under_path (fs : filesystem) (path : string)
  : list string :=
  fold_left (fun filenames filename =>
               let filename := path_join path filename in
               if isdir fs filename then filenames
               else filenames ++ [filename])
            (listdir fs path) [].

(** ** Pair generator *)

Definition newline : ascii := "010"%char.

(** [re.compile('\n+').split(text)]: the pieces between maximal runs of
    newlines, with an empty piece before a leading run and after a trailing
    one.  [cur] is the current piece reversed, [in_run] says whether the
    previous character was a newline. *)
Fixpoint split_newline_runs_aux (s : list ascii) (cur : list ascii)
         (in_run : bool) : list (list ascii) :=
  match s with
  | [] => [rev cur]
  | c :: rest =>
      if Ascii.eqb c newline then
        if in_run then split_newline_runs_aux rest cur true
        else rev cur :: split_newline_runs_aux rest [] true
      else split_newline_runs_aux rest (c :: cur) false
  end.

Definition match_newline_pattern_split (text : document) : list (list ascii) :=
  split_newline_runs_aux text [] false.

(** [for i in range(1, len(encoded)): yield encoded[: i + 1]] *)
Definition pairs_of_encoded (encoded : list nat) : list (list nat) :=
  map (fun i => firstn (i + 1) encoded) (seq 1 (length encoded - 1)).

(** The body of [generate_input_output_pair_from_corpus] for one document;
    [encode line] is [tokenizer.texts_to_sequences([line])[0]]. *)
Definition pairs_of_text (encode : list ascii -> list nat) (text : document)
  : list (list nat) :=
  flat_map (fun line =>
              match line with
              | [] => []
              | _ => pairs_of_encoded (encode line)
              end)
           (match_newline_pattern_split text).

(** [generate_input_output_pair_from_corpus]: the documents are those
    yielded by [generate_text_from_corpus], in scan order. *)
Definition generate_input_output_pair_from_corpus
           (encode : list ascii -> list nat) (texts : list document)
  : list (list nat) :=
  flat_map (pairs_of_text encode) texts.

(** ** Batch materialization *)

(** [np.asarray(v, dtype='int32')] on a Python int [v >= 0], as NumPy 1.x
    (the NumPy of Keras 2) converts it: [v] is read as a C long, which
    raises OverflowError from [2^63] on, and its low 32 bits are kept, read
    in two's complement (a token from [2^31] on wraps). *)
Definition to_int32 (v : nat) : option Z :=
  let z := Z.of_nat v in
  if (z <? 2 ^ 63)%Z then
    let low := (z mod 2 ^ 32)%Z in
    Some (if (low <? 2 ^ 31)%Z then low else (low - 2 ^ 32)%Z)
  else None.

Fixpoint to_int32_list (s : list nat) : option (list Z) :=
  match s with
  | [] => Some []
  | v :: rest =>
      match to_int32 v, to_int32_list rest with
      | Some z, Some zs => Some (z :: zs)
      | _, _ => None
      end
  end.

(** Keras [pad_sequences(..., maxlen, padding='pre', truncating='pre')] on
    one row, with the default [dtype='int32']: an empty row is left as
    padding; otherwise [trunc = np.asarray(s[-maxlen:], dtype='int32')] is
    written at the right end of a zero row.  With [maxlen = 0], [s[-0:]] is
    the whole row, which does not fit the empty slice: the assignment
    raises, if the conversion has not raised already. *)
Definition pad_row (maxlen : nat) (s : list nat) : option (list Z) :=
  match s with
  | [] => Some (repeat 0%Z maxlen)
  | _ :: _ =>
      match maxlen with
      | 0 => None
      | _ => match to_int32_list (skipn (length s - maxlen) s) with
             | Some trunc => Some (repeat 0%Z (maxlen - length trunc) ++ trunc)
             | None => None
             end
      end
  end.

Fixpoint pad_sequences (seqs : list (list nat)) (maxlen : nat)
  : option (list (list Z)) :=
  match seqs with
  | [] => Some []
  | s :: rest =>
      match pad_row maxlen s, pad_sequences rest maxlen with
      | Some r, Some rs => Some (r :: rs)
      | _, _ => None
      end
  end.

(** [X, y = rows[:, :-1], rows[:, -1]]: indexing column [-1] of a matrix
    with no column raises. *)
Definition split_input_output (rows : list (list Z)) (width : nat)
  : option (list (list Z) * list Z) :=
  match width with
  | 0 => None
  | _ => Some (map (@removelast Z) rows, map (fun r => last r 0%Z) rows)
  end.

Definition one_hot_row (num_classes k : nat) : list nat :=
  map (fun j => if j =? k then 1 else 0) (seq 0 num_classes).

(** Keras [to_categorical(y, num_classes)]: [categorical[arange(n), y] = 1].
    NumPy reads an index [-num_classes <= k < 0] as [num_classes + k] and
    raises on an index outside [[-num_classes, num_classes)]. *)
Fixpoint to_categorical (y : list Z) (num_classes : nat)
  : option (list (list nat)) :=
  match y with
  | [] => Some []
  | k :: rest =>
      let n := Z.of_nat num_classes in
      if ((- n <=? k) && (k <? n))%Z then
        match to_categorical rest num_classes with
        | Some rs =>
            Some (one_hot_row num_classes
                    (Z.to_nat (if (k <? 0)%Z then (n + k)%Z else k)) :: rs)
        | None => None
        end
      else None
  end.

(** Outcome of [process_format_to_model_input]: [sys.exit(code)], the
    returned [(X, y)], or an exception raised by the library calls. *)
Inductive outcome :=
| Exit (code : Z)
| Batch (X : list (list Z)) (y : list (list nat))
| Fail.

Definition process_format_to_model_input (p : parameters)
           (input_output_pairs : list (list nat)) (vocab_size max_length : nat)
  : outcome :=
  let y_memory_size :=
    get_array_memory_size [Z.of_nat (length input_output_pairs);
                           Z.of_nat (vocab_size + 1)] 8 in
  if negb (Qle_bool y_memory_size (Y_MEMORY_SIZE_THRESHOLD_GB p)) then Exit 0
  else
    match pad_sequences input_output_pairs max_length with
    | None => Fail
    | Some rows =>
        match split_input_output rows max_length with
        | None => Fail
        | Some (X, y) =>
            match to_categorical y (vocab_size + 1) with
            | None => Fail
            | Some y => Batch X y
            end
        end
    end.

(** ** Batch generator *)

(** What the generator does when pulled: yield a batch, stop the process
    with [sys.exit], or raise. *)
Inductive event :=
| Yield (X : list (list Z)) (y : list (list nat))
| Stop (code : Z)
| Raise.

Definition abrupt (e : event) : bool :=
  match e with
  | Yield _ _ => false
  | _ => true
  end.

(** One pass of the [for] loop of [generate_batch_samples_from_corpus]
    over the pairs of one scan of the corpus.  [count < BATCH_SAMPLES_NUMBER
    - 1] is computed on [nat]; since [count >= 0] the truncated subtraction
    gives the same test as Python's. *)
Fixpoint batch_pass (p : parameters) (vocab_size max_length : nat)
         (pairs : list (list nat)) (batch_samples_count : nat)
         (input_output_pairs : list (list nat)) : list event :=
  match pairs with
  | [] => []
  | input_output_pair :: rest =>
      if batch_samples_count <? BATCH_SAMPLES_NUMBER p - 1 then
        batch_pass p vocab_size max_length rest (S batch_samples_count)
                   (input_output_pairs ++ [input_output_pair])
      else
        match process_format_to_model_input p (input_output_pairs ++ [input_output_pair])
                vocab_size max_length with
        | Exit code => [Stop code]
        | Fail => [Raise]
        | Batch X y =>
            Yield X y :: batch_pass p vocab_size max_length rest 0 []
        end
  end.

(** [generate_batch_samples_from_corpus]: the [while True] loop, run for
    [fuel] iterations.  Iteration [k] re-scans the corpus and reads the
    documents [corpus k], every file being readable (read errors are part
    of [generate_batch_samples_reading] below), and starts from an empty
    buffer; an exit or an exception ends the generator. *)
Fixpoint generate_batch_samples_from_corpus (p : parameters)
         (encode : list ascii -> list nat) (corpus : nat -> list document)
         (vocab_size max_length : nat) (fuel k : nat) : list event :=
  match fuel with
  | 0 => []
  | S fuel' =>
      let evs := batch_pass p vocab_size max_length
                   (generate_input_output_pair_from_corpus encode (corpus k))
                   0 [] in
      if existsb abrupt evs then evs
      else evs ++ generate_batch_samples_from_corpus p encode corpus
                    vocab_size max_length fuel' (S k)
  end.

(** ** Plotting utility *)

(** The observable effects of [plot_figure]; [PlotRaise] is an exception,
    which ends the call. *)
Inductive plot_action :=
| PrintMsg (msg : string) (n : nat)
| NewFigure (figure_name : string)
| PlotCurve (x y : list Q) (fmt : string) (lw : nat)
| MakeDirs (path : string)
| SaveFig (url : string)
| ShowFig
| PlotRaise.

Definition plot_raised (acts : list plot_action) : bool :=
  existsb (fun a => match a with PlotRaise => true | _ => false end) acts.

(** The statements [b] run after [a], unless [a] raised. *)
Definition then_do (a b : list plot_action) : list plot_action :=
  if plot_raised a then a else a ++ b.

(** [plt.plot(args[i][0], args[i][1], colors[i]+styles[i], lw=3)] for the
    curves from index [i] on; matplotlib raises ValueError when [x] and [y]
    differ in length. *)
Fixpoint plot_curves (colors styles : list string) (i : nat)
         (args : list (list Q * list Q)) : list plot_action :=
  match args with
  | [] => []
  | (x, y) :: rest =>
      if List.length x =? List.length y then
        PlotCurve x y (nth i colors "" ++ nth i styles "")%string 3
          :: plot_curves colors styles (S i) rest
      else [PlotRaise]
  end.

(** [plot_figure(figure_name, *args)]; [figure_path_exists] is
    [os.path.exists(parameters.FIGURE_PATH)], [makedirs_ok] and [savefig_ok]
    say whether [os.makedirs] and [plt.savefig] succeed, and [current_time]
    is the formatted local time. *)
Definition plot_figure (FIGURE_PATH : string)
           (figure_path_exists makedirs_ok savefig_ok : bool)
           (current_time : string) (figure_name : string)
           (args : list (list Q * list Q)) : list plot_action :=
  let colors := ["r"; "b"; "g"; "y"; "k"]%string in
  let styles := ["-"; "--"; "-."; ":"]%string in
  let max_args_num := List.length styles in
  let length := List.length args in
  if max_args_num <? length then
    [PrintMsg "too much tuple, more than" max_args_num]
  else
    NewFigure figure_name
      :: then_do (plot_curves colors styles 0 args)
           (then_do (if figure_path_exists then []
                     else if makedirs_ok then [MakeDirs FIGURE_PATH]
                     else [PlotRaise])
              (if savefig_ok
               then [SaveFig (path_join FIGURE_PATH
                                ("lm_" ++ current_time ++ ".png"));
                     ShowFig]
               else [PlotRaise])).

(** The curves an action trace draws, in order. *)
Definition curves_plotted (acts : list plot_action) : list (list Q * list Q) :=
  flat_map (fun a => match a with
                     | PlotCurve x y _ _ => [(x, y)]
                     | _ => []
                     end) acts.

Definition saves_figure (acts : list plot_action) : bool :=
  existsb (fun a => match a with SaveFig _ => true | _ => false end) acts.

(** ** Derived notions used in the statements *)

(** The segments of a document: the pieces of the split that survive the
    [if line == '': continue] test. *)
Definition segments (text : document) : list (list ascii) :=
  filter (fun line => match line with [] => false | _ => true end)
         (match_newline_pattern_split text).

(** No two consecutive newlines: the document has no blank line. *)
Fixpoint has_blank_line (s : list ascii) : bool :=
  match s with
  | c1 :: ((c2 :: _) as rest) =>
      (Ascii.eqb c1 newline && Ascii.eqb c2 newline) || has_blank_line rest
  | _ => false
  end.

(** Collapsing every run of newlines into one newline. *)
Fixpoint collapse_newline_runs (s : list ascii) : list ascii :=
  match s with
  | c1 :: ((c2 :: _) as rest) =>
      if Ascii.eqb c1 newline && Ascii.eqb c2 newline
      then collapse_newline_runs rest
      else c1 :: collapse_newline_runs rest
  | _ => s
  end.

(** A valid one-hot row over [n] classes. *)
Definition one_hot_ok (n : nat) (r : list nat) : Prop :=
  length r = n /\ list_sum r = 1 /\ exists k, k < n /\ r = one_hot_row n k.

Ltac same_bytes :=
  match goal with
  | |- (byte_to_gb ?a == byte_to_gb ?b)%Q =>
      replace a with b by ring; reflexivity
  end.

(** A full batch passes the memory-ceiling guard. *)
Definition full_batch_ok (p : parameters) (vocab_size : nat) : Prop :=
  (get_array_memory_size [Z.of_nat (BATCH_SAMPLES_NUMBER p);
                          Z.of_nat (vocab_size + 1)] 8
   <= Y_MEMORY_SIZE_THRESHOLD_GB p)%Q.

Ltac in_list := repeat (first [left; reflexivity | right]).

(** ** The worked scenario of the spec

    Two files, ["a b\n\nc d e"] and ["f g"]; the vocabulary maps the
    letters [a] .. [g] to [1] .. [7] and drops everything else. *)

Definition scenario_encode (line : list ascii) : list nat :=
  flat_map (fun c => let n := nat_of_ascii c in
                     if (97 <=? n) && (n <=? 103) then [n - 96] else [])
           line.

Definition scenario_corpus (k : nat) : list document :=
  [["a"; " "; "b"; newline; newline; "c"; " "; "d"; " "; "e"]%char;
   ["f"; " "; "g"]%char].

Definition scenario_parameters : parameters :=
  {| BATCH_SAMPLES_NUMBER := 3; Y_MEMORY_SIZE_THRESHOLD_GB := 1 |}.

(** The same two files as the directory ["corpus"], holding [a.txt] and
    [b.txt]. *)
Definition scenario_fs : filesystem :=
  {| listdir := fun _ => ["a.txt"; "b.txt"]%string; isdir := fun _ => false |}.

Definition scenario_read_file (filename : string) : option document :=
  if String.eqb filename "corpus/a.txt" then Some (nth 0 (scenario_corpus 0) [])
  else if String.eqb filename "corpus/b.txt" then Some (nth 1 (scenario_corpus 0) [])
  else None.

(** ** Corpus text source *)

(** Reading the files in scan order: [read_file f] is the content of [f],
    or [None] when [open]/[read] raises (missing file, bad encoding); the
    exception ends the generator.  The result is the list of contents
    yielded and whether the generator raised. *)
Fixpoint read_files (read_file : string -> option document)
         (filenames : list string) : list document * bool :=
  match filenames with
  | [] => ([], false)
  | filename :: rest =>
      match read_file filename with
      | None => ([], true)
      | Some text => let (texts, raised) := read_files read_file rest in
                     (text :: texts, raised)
      end
  end.

(** [generate_text_from_corpus(path)] *)
Definition generate_text_from_corpus (fs : filesystem)
           (read_file : string -> option document) (path : string)
  : list document * bool :=
  read_files read_file (get_filenames_under_path fs path).

(** [generate_batch_samples_from_corpus] with its text source, run for
    [fuel] iterations of the [while True] loop: iteration [k] scans the
    directory [path] of [fs_at k] and reads its files with [read_at k].  The
    pairs of each file are batched as they are read, so a file that cannot
    be read raises after the events of the files before it. *)
Fixpoint generate_batch_samples_reading (p : parameters)
         (encode : list ascii -> list nat) (fs_at : nat -> filesystem)
         (read_at : nat -> string -> option document) (path : string)
         (vocab_size max_length : nat) (fuel k : nat) : list event :=
  match fuel with
  | 0 => []
  | S fuel' =>
      let (texts, raised) := generate_text_from_corpus (fs_at k) (read_at k) path in
      let evs := batch_pass p vocab_size max_length
                   (generate_input_output_pair_from_corpus encode texts) 0 [] in
      if existsb abrupt evs then evs
      else if raised then evs ++ [Raise]
      else evs ++ generate_batch_samples_reading p encode fs_at read_at path
                    vocab_size max_length fuel' (S k)
  end.

(** ** Derived notions for the pipeline properties *)

(** Pieces joined back with one newline between consecutive pieces. *)
Fixpoint join_lines (pieces : list (list ascii)) : list ascii :=
  match pieces with
  | [] => []
  | [piece] => piece
  | piece :: rest => piece ++ newline :: join_lines rest
  end.

Fixpoint drop_newlines (s : list ascii) : list ascii :=
  match s with
  | c :: rest => if Ascii.eqb c newline then drop_newlines rest else s
  | [] => []
  end.

(** Consecutive groups of [B] elements, the incomplete tail left out;
    [fuel] bounds the number of groups. *)
Fixpoint chunks {A} (B fuel : nat) (l : list A) : list (list A) :=
  match fuel with
  | 0 => []
  | S fuel' =>
      if B <=? length l then firstn B l :: chunks B fuel' (skipn B l)
      else []
  end.

Definition batches_of {A} (B : nat) (l : list A) : list (list A) :=
  chunks B (length l) l.

(** Every token fits in an int32, so the int32 conversion of the padding
    keeps it. *)
Definition int32_tokens (s : list nat) : Prop :=
  Forall (fun v => (Z.of_nat v < 2 ^ 31)%Z) s.

(** A pair left-padded with 0 (left-truncated) to [max_length] elements. *)
Definition padded_row (max_length : nat) (s : list nat) : list Z :=
  repeat 0%Z (max_length - length s)
  ++ map Z.of_nat (skipn (length s - max_length) s).

(** The input rows and the one-hot targets of a materialized buffer. *)
Definition padded_inputs (max_length : nat) (pairs : list (list nat))
  : list (list Z) :=
  map (fun s => removelast (padded_row max_length s)) pairs.

Definition one_hot_targets (vocab_size : nat) (pairs : list (list nat))
  : list (list nat) :=
  map (fun s => one_hot_row (vocab_size + 1) (last s 0)) pairs.

(** ** Properties *)

(** *** Memory estimator *)

Lemma fold_left_mul_acc (l : list Z) (a : Z) :
  fold_left Z.mul l a = (a * fold_left Z.mul l 1)%Z.
Proof.
  revert a; induction l as [|d l IH]; intros a; cbn [fold_left].
  - lia.
  - rewrite IH, (IH (1 * d)%Z). lia.
Qed.

Lemma fold_left_mul_app (l1 l2 : list Z) :
  fold_left Z.mul (l1 ++ l2) 1%Z
  = (fold_left Z.mul l1 1 * fold_left Z.mul l2 1)%Z.
Proof. rewrite fold_left_app, fold_left_mul_acc. reflexivity. Qed.

Lemma fold_left_mul_pos (l : list Z) :
  Forall (fun d => 0 < d)%Z l -> (0 < fold_left Z.mul l 1)%Z.
Proof.
  induction 1 as [|d l Hd _ IH]; cbn [fold_left]; [lia|].
  rewrite fold_left_mul_acc. lia.
Qed.

Section Rounding.
Local Open Scope Z_scope.

Lemma round_nonneg_small (a : Z) : 0 <= a < 2 ^ 53 -> round_nonneg a = a.
Proof.
  intros [H0 H1]. unfold round_nonneg.
  destruct (Z.eq_dec a 0) as [->|Ha]; [reflexivity|].
  assert (Hl : Z.log2 a < 53) by (apply (Z.log2_lt_pow2 a 53); [lia|exact H1]).
  destruct (Z.leb_spec (Z.log2 a - 52) 0); [reflexivity|lia].
Qed.

Lemma round_nonneg_bounds (a : Z) : 0 < a ->
  2 ^ Z.log2 a <= round_nonneg a <= 2 ^ (Z.log2 a + 1).
Proof.
  intros Ha. destruct (Z.log2_spec a Ha) as [Hlo Hhi].
  rewrite <- Z.add_1_r in Hhi.
  unfold round_nonneg. set (L := Z.log2 a) in *.
  destruct (Z.leb_spec (L - 52) 0) as [He|He]; [lia|].
  set (e := L - 52).
  assert (HL : 2 ^ L = 2 ^ e * 2 ^ 52)
    by (rewrite <- Z.pow_add_r by lia; f_equal; lia).
  assert (HL1 : 2 ^ (L + 1) = 2 ^ e * 2 ^ 53)
    by (rewrite <- Z.pow_add_r by lia; f_equal; lia).
  assert (Hpe : 0 < 2 ^ e) by (apply Z.pow_pos_nonneg; lia).
  assert (Hq1 : 2 ^ 52 <= a / 2 ^ e)
    by (apply Z.div_le_lower_bound; [exact Hpe|rewrite <- HL; exact Hlo]).
  assert (Hq2 : a / 2 ^ e < 2 ^ 53)
    by (apply Z.div_lt_upper_bound; [exact Hpe|rewrite <- HL1; exact Hhi]).
  rewrite HL, HL1.
  destruct (_ || _); nia.
Qed.

Lemma round_nonneg_nonneg (a : Z) : 0 <= a -> 0 <= round_nonneg a.
Proof.
  intros Ha. destruct (Z.eq_dec a 0) as [->|Ha0]; [reflexivity|].
  pose proof (round_nonneg_bounds a ltac:(lia)).
  pose proof (Z.pow_pos_nonneg 2 (Z.log2 a) ltac:(lia) (Z.log2_nonneg a)). lia.
Qed.

Lemma round_nonneg_mono (a b : Z) : 0 <= a <= b -> round_nonneg a <= round_nonneg b.
Proof.
  intros [Ha Hab].
  destruct (Z.eq_dec a 0) as [->|Ha0].
  { change (round_nonneg 0) with 0. apply round_nonneg_nonneg. lia. }
  assert (Hla : Z.log2 a <= Z.log2 b) by (apply Z.log2_le_mono; exact Hab).
  destruct (Z.eq_dec (Z.log2 a) (Z.log2 b)) as [HL|HL].
  - unfold round_nonneg. rewrite <- HL. set (e := Z.log2 a - 52).
    destruct (Z.leb_spec e 0) as [He|He]; [exact Hab|].
    assert (Hpe : 0 < 2 ^ e) by (apply Z.pow_pos_nonneg; lia).
    pose proof (Z.div_le_mono a b (2 ^ e) Hpe Hab) as Hq.
    pose proof (Z.div_mod a (2 ^ e) ltac:(lia)) as Da.
    pose proof (Z.div_mod b (2 ^ e) ltac:(lia)) as Db.
    set (qa := a / 2 ^ e) in *. set (qb := b / 2 ^ e) in *.
    set (ra := a mod 2 ^ e) in *. set (rb := b mod 2 ^ e) in *.
    set (h := 2 ^ (e - 1)).
    destruct (Z.eq_dec qa qb) as [Eq|Nq].
    + rewrite <- Eq in *.
      assert (Hr : ra <= rb) by lia.
      destruct (Z.ltb_spec h ra); destruct (Z.eqb_spec ra h);
        destruct (Z.ltb_spec h rb); destruct (Z.eqb_spec rb h);
        destruct (Z.odd qa); simpl; nia.
    + destruct (_ || _); destruct (_ || _); nia.
  - pose proof (round_nonneg_bounds a ltac:(lia)).
    pose proof (round_nonneg_bounds b ltac:(lia)).
    assert (2 ^ (Z.log2 a + 1) <= 2 ^ Z.log2 b)
      by (apply Z.pow_le_mono_r; lia).
    lia.
Qed.

Lemma round_nonneg_double (a : Z) : 0 <= a -> round_nonneg (2 * a) = 2 * round_nonneg a.
Proof.
  intros Ha. destruct (Z.eq_dec a 0) as [->|Ha0]; [reflexivity|].
  unfold round_nonneg. rewrite Z.log2_double by lia.
  set (L := Z.log2 a).
  destruct (Z.leb_spec (Z.succ L - 52) 0) as [H1|H1];
    destruct (Z.leb_spec (L - 52) 0) as [H2|H2]; try lia.
  - replace (Z.succ L - 52) with 1 by lia.
    rewrite Z.pow_1_r, (Z.mul_comm 2 a), Z.div_mul, Z.mod_mul by lia.
    simpl. ring.
  - replace (Z.succ L - 52) with (L - 52 + 1) by lia.
    set (e := L - 52).
    assert (Hpe : 0 < 2 ^ e) by (apply Z.pow_pos_nonneg; lia).
    rewrite Z.pow_add_r, Z.pow_1_r by lia.
    rewrite (Z.mul_comm (2 ^ e) 2), Z.div_mul_cancel_l, Z.mul_mod_distr_l by lia.
    replace (e + 1 - 1) with e by lia.
    set (h := 2 ^ (e - 1)).
    assert (Hh : 2 ^ e = 2 * h)
      by (unfold h; rewrite <- Z.pow_succ_r by lia; f_equal; lia).
    set (r := a mod 2 ^ e). set (q := a / 2 ^ e).
    destruct (Z.ltb_spec h r); destruct (Z.ltb_spec (2 ^ e) (2 * r));
      destruct (Z.eqb_spec r h); destruct (Z.eqb_spec (2 * r) (2 ^ e));
      destruct (Z.odd q); cbn [orb andb]; try lia; ring.
Qed.

Lemma round_to_double_nonneg (n : Z) : 0 <= n -> round_to_double n = round_nonneg n.
Proof.
  intros Hn. unfold round_to_double. rewrite Z.abs_eq by exact Hn.
  destruct (Z.eq_dec n 0) as [->|Hn0]; [reflexivity|].
  rewrite Z.sgn_pos by lia. ring.
Qed.

End Rounding.

Lemma byte_to_gb_le (a b : Z) : (0 <= a <= b)%Z -> (byte_to_gb a <= byte_to_gb b)%Q.
Proof.
  intros Hab. unfold byte_to_gb. rewrite !round_to_double_nonneg by lia.
  apply Qmult_le_r; [reflexivity|]. rewrite <- Zle_Qle.
  apply round_nonneg_mono. exact Hab.
Qed.

Lemma byte_to_gb_exact (a : Z) :
  (0 <= a < 2 ^ 53)%Z -> (byte_to_gb a == inject_Z a / inject_Z (2 ^ 30))%Q.
Proof.
  intros Ha. unfold byte_to_gb.
  rewrite round_to_double_nonneg, round_nonneg_small by lia. reflexivity.
Qed.

Lemma byte_to_gb_lt (a b : Z) :
  (0 <= a)%Z -> (a < b)%Z -> (b < 2 ^ 53)%Z -> (byte_to_gb a < byte_to_gb b)%Q.
Proof.
  intros Ha Hab Hb. unfold byte_to_gb.
  rewrite !round_to_double_nonneg, !round_nonneg_small by lia.
  apply Qmult_lt_r; [reflexivity|]. rewrite <- Zlt_Qlt. exact Hab.
Qed.

Lemma byte_to_gb_double (a : Z) :
  (0 <= a)%Z -> (byte_to_gb (2 * a) == 2 * byte_to_gb a)%Q.
Proof.
  intros Ha. unfold byte_to_gb.
  rewrite !round_to_double_nonneg by lia. rewrite round_nonneg_double by exact Ha.
  unfold Qdiv. rewrite inject_Z_mult. ring.
Qed.

Lemma fold_left_mul_right (l : list Z) :
  fold_left Z.mul l 1%Z = fold_right Z.mul 1%Z l.
Proof.
  induction l as [|d l IH]; cbn [fold_left fold_right]; [reflexivity|].
  rewrite fold_left_mul_acc, IH. ring.
Qed.

Lemma fold_left_mul_split (pre post : list Z) (d : Z) :
  fold_left Z.mul (pre ++ d :: post) 1%Z
  = (fold_left Z.mul pre 1 * d * fold_left Z.mul post 1)%Z.
Proof.
  rewrite fold_left_mul_app. cbn [fold_left].
  rewrite (fold_left_mul_acc post (1 * d)%Z). ring.
Qed.

(** C6, as stated, fails: Python's [/] rounds the byte count to a double,
    so above [2^53] bytes distinct counts give the same size.  The shapes
    [(2^54,)] and [(2^54 + 1,)] with 1-byte items both give [2^24] GB: the
    estimator does not increase with the dimension there, and the second
    size is not [(2^54 + 1) / 2^30]. *)
Lemma get_array_memory_size_rounding_counterexample :
  (get_array_memory_size [(2 ^ 54)%Z] 1 == 16777216)%Q
  /\ (get_array_memory_size [(2 ^ 54 + 1)%Z] 1 == 16777216)%Q
  /\ ~ (get_array_memory_size [(2 ^ 54)%Z] 1
        < get_array_memory_size [(2 ^ 54 + 1)%Z] 1)%Q
  /\ ~ (get_array_memory_size [(2 ^ 54 + 1)%Z] 1
        == inject_Z (2 ^ 54 + 1) / inject_Z (2 ^ 30))%Q.
Proof.
  split; [vm_compute; reflexivity|].
  split; [vm_compute; reflexivity|].
  split; intros H; vm_compute in H; discriminate.
Qed.

(** C6, amended: the estimator is [(product of shape) * item_size / 2^30]
    rounded to the nearest double, and exactly that quotient when the byte
    count is below [2^53].  On shapes of positive integers and positive
    item sizes, with byte counts below [2^1024] (inside the range where
    Python's division does not overflow), it is non-decreasing in each
    dimension and in the item size, strictly increasing as long as the
    larger byte count is below [2^53], and doubling one dimension or the
    item size doubles it. *)
Theorem get_array_memory_size_rounded_monotone
        (pre post : list Z) (d d' item item' : Z)
        (Hpre : Forall (fun x => 0 < x)%Z pre)
        (Hpost : Forall (fun x => 0 < x)%Z post)
        (Hd : (0 < d)%Z) (Hdd : (d <= d')%Z)
        (Hi : (0 < item)%Z) (Hii : (item <= item')%Z)
        (Hrange : (2 * (fold_right Z.mul 1 (pre ++ d' :: post) * item')
                   < 2 ^ 1024)%Z) :
  let shape := pre ++ d :: post in
  let shape' := pre ++ d' :: post in
  (get_array_memory_size shape item
     == inject_Z (round_to_double (fold_right Z.mul 1 shape * item)%Z)
        / inject_Z (2 ^ 30))%Q
  /\ ((fold_right Z.mul 1 shape * item < 2 ^ 53)%Z ->
      (get_array_memory_size shape item
         == inject_Z (fold_right Z.mul 1 shape * item)%Z / inject_Z (2 ^ 30))%Q)
  /\ (get_array_memory_size shape item <= get_array_memory_size shape' item)%Q
  /\ (get_array_memory_size shape item <= get_array_memory_size shape item')%Q
  /\ ((d < d')%Z -> (fold_right Z.mul 1 shape' * item < 2 ^ 53)%Z ->
      (get_array_memory_size shape item < get_array_memory_size shape' item)%Q)
  /\ ((item < item')%Z -> (fold_right Z.mul 1 shape * item' < 2 ^ 53)%Z ->
      (get_array_memory_size shape item < get_array_memory_size shape item')%Q)
  /\ (get_array_memory_size (pre ++ (2 * d)%Z :: post) item
      == 2 * get_array_memory_size shape item)%Q
  /\ (get_array_memory_size shape (2 * item)
      == 2 * get_array_memory_size shape item)%Q.
Proof.
  intros shape shape'. subst shape shape'. unfold get_array_memory_size.
  pose proof (fold_left_mul_pos pre Hpre) as HP.
  pose proof (fold_left_mul_pos post Hpost) as HQ.
  rewrite <- !fold_left_mul_right, !fold_left_mul_split.
  set (P := fold_left Z.mul pre 1%Z) in *.
  set (R := fold_left Z.mul post 1%Z) in *.
  assert (H0 : (0 <= P * d * R * item)%Z) by nia.
  split; [|split; [|split; [|split; [|split; [|split; [|split]]]]]].
  - reflexivity.
  - intros Hs. apply byte_to_gb_exact. lia.
  - apply byte_to_gb_le. split; [exact H0|].
    apply Z.mul_le_mono_nonneg_r; [lia|].
    apply Z.mul_le_mono_nonneg_r; [lia|].
    apply Z.mul_le_mono_nonneg_l; lia.
  - apply byte_to_gb_le. split; [exact H0|].
    apply Z.mul_le_mono_nonneg_l; [nia|exact Hii].
  - intros Hlt Hs. apply byte_to_gb_lt; [exact H0| |exact Hs].
    apply Z.mul_lt_mono_pos_r; [lia|].
    apply Z.mul_lt_mono_pos_r; [lia|]. apply Z.mul_lt_mono_pos_l; lia.
  - intros Hlt Hs. apply byte_to_gb_lt; [exact H0| |exact Hs].
    apply Z.mul_lt_mono_pos_l; [nia|exact Hlt].
  - rewrite <- byte_to_gb_double by exact H0. same_bytes.
  - rewrite <- byte_to_gb_double by exact H0. same_bytes.
Qed.

Lemma get_array_memory_size_rounded_monotone_witness :
  let shape := [1000%Z] ++ 7%Z :: [8%Z] in
  let shape' := [1000%Z] ++ 9%Z :: [8%Z] in
  (get_array_memory_size shape 8
     == inject_Z (round_to_double (fold_right Z.mul 1 shape * 8)%Z)
        / inject_Z (2 ^ 30))%Q
  /\ ((fold_right Z.mul 1 shape * 8 < 2 ^ 53)%Z ->
      (get_array_memory_size shape 8
         == inject_Z (fold_right Z.mul 1 shape * 8)%Z / inject_Z (2 ^ 30))%Q)
  /\ (get_array_memory_size shape 8 <= get_array_memory_size shape' 8)%Q
  /\ (get_array_memory_size shape 8 <= get_array_memory_size shape 16)%Q
  /\ ((7 < 9)%Z -> (fold_right Z.mul 1 shape' * 8 < 2 ^ 53)%Z ->
      (get_array_memory_size shape 8 < get_array_memory_size shape' 8)%Q)
  /\ ((8 < 16)%Z -> (fold_right Z.mul 1 shape * 16 < 2 ^ 53)%Z ->
      (get_array_memory_size shape 8 < get_array_memory_size shape 16)%Q)
  /\ (get_array_memory_size ([1000%Z] ++ (2 * 7)%Z :: [8%Z]) 8
      == 2 * get_array_memory_size shape 8)%Q
  /\ (get_array_memory_size shape (2 * 8)
      == 2 * get_array_memory_size shape 8)%Q.
Proof.
  apply (get_array_memory_size_rounded_monotone [1000%Z] [8%Z] 7 9 8 16);
    try (repeat constructor; lia); lia || (vm_compute; reflexivity).
Defined.

(** *** Pair generator *)

Lemma firstn_succ_nth (l : list nat) (i : nat) :
  i < length l -> firstn (i + 1) l = firstn i l ++ [nth i l 0].
Proof.
  revert i; induction l as [|a l IH]; intros i Hi; simpl in Hi; [lia|].
  destruct i as [|i]; [reflexivity|].
  simpl. rewrite IH by lia. reflexivity.
Qed.

Lemma nth_error_map_seq {A} (f : nat -> A) (s m j : nat) :
  j < m -> nth_error (map f (seq s m)) j = Some (f (s + j)).
Proof.
  intros Hj. rewrite nth_error_map, nth_error_seq.
  destruct (Nat.ltb_spec j m); [reflexivity | lia].
Qed.

(** C2: a token sequence of length [n] gives exactly [n - 1] pairs; the
    [i]-th one ([1 <= i <= n - 1]) is the prefix [encoded[0:i]] followed by
    the target [encoded[i]]; fewer than two tokens give no pair. *)
Theorem pairs_of_encoded_prefixes (encoded : list nat) :
  length (pairs_of_encoded encoded) = length encoded - 1
  /\ (forall i, 1 <= i <= length encoded - 1 ->
        nth_error (pairs_of_encoded encoded) (i - 1)
        = Some (firstn i encoded ++ [nth i encoded 0]))
  /\ (length encoded < 2 -> pairs_of_encoded encoded = []).
Proof.
  unfold pairs_of_encoded. split; [|split].
  - rewrite length_map, length_seq. reflexivity.
  - intros i Hi. rewrite nth_error_map_seq by lia.
    replace (1 + (i - 1)) with i by lia.
    rewrite firstn_succ_nth by lia. reflexivity.
  - intros Hn. replace (length encoded - 1) with 0 by lia. reflexivity.
Qed.

(** *** Newline splitting *)

Lemma pairs_of_text_segments encode text :
  pairs_of_text encode text
  = flat_map (fun line => pairs_of_encoded (encode line)) (segments text).
Proof.
  unfold pairs_of_text, segments.
  induction (match_newline_pattern_split text) as [|l ls IH]; [reflexivity|].
  destruct l; simpl; rewrite IH; reflexivity.
Qed.

Lemma split_aux_no_newline (s cur : list ascii) :
  ~ In newline s -> split_newline_runs_aux s cur false = [rev cur ++ s].
Proof.
  revert cur; induction s as [|c s IH]; intros cur Hs; simpl.
  - rewrite app_nil_r. reflexivity.
  - destruct (Ascii.eqb_spec c newline) as [E|E].
    + exfalso. apply Hs. left. exact E.
    + rewrite IH by (intros H; apply Hs; right; exact H).
      simpl. rewrite <- app_assoc. reflexivity.
Qed.

(** C5, as stated, fails: the two-line document ["a\nb"] has no blank line,
    is unchanged by collapsing, and splits into the two segments ["a"] and
    ["b"]. *)
Lemma segments_single_newline_counterexample :
  let doc := ["a"; newline; "b"]%char in
  has_blank_line doc = false
  /\ collapse_newline_runs doc = doc
  /\ segments doc = [["a"%char]; ["b"%char]]
  /\ segments doc <> [collapse_newline_runs doc].
Proof.
  vm_compute. repeat split. discriminate.
Qed.

(** C5, amended: a non-empty document with no newline at all is one
    segment, the whole document; so are its pairs. *)
Theorem segments_without_newline (encode : list ascii -> list nat)
        (doc : document) (Hne : doc <> []) (Hnl : ~ In newline doc) :
  match_newline_pattern_split doc = [doc]
  /\ segments doc = [doc]
  /\ pairs_of_text encode doc = pairs_of_encoded (encode doc).
Proof.
  assert (Hs : match_newline_pattern_split doc = [doc])
    by (unfold match_newline_pattern_split; rewrite split_aux_no_newline; auto).
  assert (Hseg : segments doc = [doc]).
  { unfold segments. rewrite Hs. destruct doc; [contradiction|reflexivity]. }
  repeat split; auto.
  rewrite pairs_of_text_segments, Hseg. simpl. apply app_nil_r.
Qed.

Lemma segments_without_newline_witness :
  match_newline_pattern_split ["a"; " "; "b"]%char = [["a"; " "; "b"]%char]
  /\ segments ["a"; " "; "b"]%char = [["a"; " "; "b"]%char]
  /\ pairs_of_text (fun l => map nat_of_ascii l) ["a"; " "; "b"]%char
     = pairs_of_encoded (map nat_of_ascii ["a"; " "; "b"]%char).
Proof.
  apply segments_without_newline.
  - discriminate.
  - simpl. intros [H|[H|[H|H]]]; try discriminate; exact H.
Defined.

(** *** Filesystem scanner *)

Lemma scan_fold_left (fs : filesystem) (path : string) (names acc : list string) :
  fold_left (fun filenames filename =>
               let filename := path_join path filename in
               if isdir fs filename then filenames
               else filenames ++ [filename]) names acc
  = acc ++ filter (fun f => negb (isdir fs f)) (map (path_join path) names).
Proof.
  revert acc; induction names as [|n names IH]; intros acc; simpl.
  - symmetry. apply app_nil_r.
  - rewrite IH. destruct (isdir fs (path_join path n)); simpl.
    + reflexivity.
    + rewrite <- app_assoc. reflexivity.
Qed.

(** C7: the scanner returns, in listing order, exactly the joined paths of
    the entries that are not directories; when no entry is a directory it
    returns all of them. *)
Theorem get_filenames_under_path_spec (fs : filesystem) (path : string) :
  get_filenames_under_path fs path
  = filter (fun f => negb (isdir fs f)) (map (path_join path) (listdir fs path))
  /\ (forall x, In x (get_filenames_under_path fs path)
                <-> exists name, In name (listdir fs path)
                                 /\ x = path_join path name
                                 /\ isdir fs x = false)
  /\ ((forall name, In name (listdir fs path) ->
                    isdir fs (path_join path name) = false) ->
      get_filenames_under_path fs path = map (path_join path) (listdir fs path)).
Proof.
  assert (E : get_filenames_under_path fs path
              = filter (fun f => negb (isdir fs f))
                       (map (path_join path) (listdir fs path)))
    by (unfold get_filenames_under_path; rewrite scan_fold_left; reflexivity).
  split; [exact E|split].
  - intros x. rewrite E, filter_In, in_map_iff. split.
    + intros [[name [Hx Hn]] Hd]. exists name.
      repeat split; auto. apply negb_true_iff. exact Hd.
    + intros [name [Hn [Hx Hd]]]. split.
      * exists name. auto.
      * rewrite Hd. reflexivity.
  - intros Hall. rewrite E. apply forallb_filter_id.
    apply forallb_forall. intros x Hx. apply in_map_iff in Hx.
    destruct Hx as [name [<- Hn]]. rewrite Hall by exact Hn. reflexivity.
Qed.

(** *** Plotting utility *)

Lemma curves_plotted_app (a b : list plot_action) :
  curves_plotted (a ++ b) = curves_plotted a ++ curves_plotted b.
Proof. unfold curves_plotted. apply flat_map_app. Qed.

Lemma plot_raised_app (a b : list plot_action) :
  plot_raised (a ++ b) = plot_raised a || plot_raised b.
Proof. unfold plot_raised. apply existsb_app. Qed.

Lemma saves_figure_app (a b : list plot_action) :
  saves_figure (a ++ b) = saves_figure a || saves_figure b.
Proof. unfold saves_figure. apply existsb_app. Qed.

Lemma then_do_ok (a b : list plot_action) :
  plot_raised a = false -> then_do a b = a ++ b.
Proof. intros H. unfold then_do. rewrite H. reflexivity. Qed.

Lemma then_do_raised (a b : list plot_action) :
  plot_raised a = true -> then_do a b = a.
Proof. intros H. unfold then_do. rewrite H. reflexivity. Qed.

(** Curves whose [x] and [y] have the same length are all drawn, in
    order. *)
Lemma plot_curves_ok (colors styles : list string) (i : nat)
      (args : list (list Q * list Q)) :
  Forall (fun c => length (fst c) = length (snd c)) args ->
  curves_plotted (plot_curves colors styles i args) = args
  /\ plot_raised (plot_curves colors styles i args) = false
  /\ saves_figure (plot_curves colors styles i args) = false.
Proof.
  intros H. revert i.
  induction H as [|[x y] args Hxy _ IH]; intros i; [repeat split|].
  simpl in Hxy. simpl plot_curves. rewrite (proj2 (Nat.eqb_eq _ _) Hxy).
  destruct (IH (S i)) as [A [B C]].
  unfold curves_plotted, plot_raised, saves_figure in *. simpl.
  rewrite A, B, C. repeat split.
Qed.

(** The first curve whose [x] and [y] differ in length raises: the
    curves before it are drawn, nothing after. *)
Lemma plot_curves_mismatch (colors styles : list string) (i : nat)
      (pre : list (list Q * list Q)) (x y : list Q)
      (post : list (list Q * list Q)) :
  Forall (fun c => length (fst c) = length (snd c)) pre ->
  length x <> length y ->
  curves_plotted (plot_curves colors styles i (pre ++ (x, y) :: post)) = pre
  /\ plot_raised (plot_curves colors styles i (pre ++ (x, y) :: post)) = true
  /\ saves_figure (plot_curves colors styles i (pre ++ (x, y) :: post)) = false.
Proof.
  intros H Hne. revert i.
  induction H as [|[x' y'] pre Hxy _ IH]; intros i.
  - simpl. rewrite (proj2 (Nat.eqb_neq _ _) Hne). repeat split.
  - simpl in Hxy. simpl app. simpl plot_curves.
    rewrite (proj2 (Nat.eqb_eq _ _) Hxy).
    destruct (IH (S i)) as [A [B C]].
    unfold curves_plotted, plot_raised, saves_figure in *. simpl.
    rewrite A, B, C. repeat split.
Qed.

(** C8, as stated, fails: with a single tuple whose [x] and [y] differ in
    length, [plt.plot] raises ValueError; the curve is not plotted and the
    figure is not saved. *)
Lemma plot_figure_mismatched_counterexample :
  let args := [([1; 2]%Q, [3]%Q)] in
  length args <= 4
  /\ curves_plotted (plot_figure "figures" true true true "t" "f" args) = []
  /\ curves_plotted (plot_figure "figures" true true true "t" "f" args) <> args
  /\ saves_figure (plot_figure "figures" true true true "t" "f" args) = false.
Proof.
  cbv zeta. split; [simpl; lia|].
  split; [reflexivity|split; [discriminate|reflexivity]].
Qed.

(** C8, amended: with more than four curves [plot_figure] only prints a
    message and returns: nothing is plotted or saved.  With at most four it
    plots the curves in order.  If every tuple has [x] and [y] of the same
    length, every curve is plotted, and the figure is saved unless creating
    the figure directory or saving raises.  Otherwise [plt.plot] raises at
    the first tuple whose lengths differ: only the curves before it are
    plotted and nothing is saved. *)
Theorem plot_figure_curve_limit (FIGURE_PATH : string)
        (exists_ makedirs_ok savefig_ok : bool)
        (current_time figure_name : string) (args : list (list Q * list Q)) :
  let acts := plot_figure FIGURE_PATH exists_ makedirs_ok savefig_ok
                current_time figure_name args in
  (4 < length args ->
   acts = [PrintMsg "too much tuple, more than" 4]
   /\ curves_plotted acts = [] /\ saves_figure acts = false)
  /\ (length args <= 4 ->
      Forall (fun c => length (fst c) = length (snd c)) args ->
      curves_plotted acts = args
      /\ saves_figure acts = (exists_ || makedirs_ok) && savefig_ok
      /\ plot_raised acts = negb ((exists_ || makedirs_ok) && savefig_ok))
  /\ (forall pre x y post,
        args = pre ++ (x, y) :: post -> length args <= 4 ->
        Forall (fun c => length (fst c) = length (snd c)) pre ->
        length x <> length y ->
        curves_plotted acts = pre /\ saves_figure acts = false
        /\ plot_raised acts = true).
Proof.
  intros acts. subst acts. unfold plot_figure. cbn zeta.
  split; [|split].
  - intros H.
    replace (length ["-"; "--"; "-."; ":"]%string <? length args) with true
      by (symmetry; apply Nat.ltb_lt; simpl; lia).
    repeat split.
  - intros H Hf.
    replace (length ["-"; "--"; "-."; ":"]%string <? length args) with false
      by (symmetry; apply Nat.ltb_ge; simpl; lia).
    destruct (plot_curves_ok ["r"; "b"; "g"; "y"; "k"]%string
                ["-"; "--"; "-."; ":"]%string 0 args Hf) as [A [B C]].
    rewrite then_do_ok by exact B.
    change (NewFigure figure_name :: ?l) with ([NewFigure figure_name] ++ l).
    rewrite !curves_plotted_app, !saves_figure_app, !plot_raised_app, A, B, C.
    destruct exists_, makedirs_ok, savefig_ok; simpl; rewrite ?app_nil_r;
      repeat split.
  - intros pre x y post -> H Hf Hne.
    replace (length ["-"; "--"; "-."; ":"]%string
             <? length (pre ++ (x, y) :: post)) with false
      by (symmetry; apply Nat.ltb_ge; simpl; lia).
    destruct (plot_curves_mismatch ["r"; "b"; "g"; "y"; "k"]%string
                ["-"; "--"; "-."; ":"]%string 0 pre x y post Hf Hne)
      as [A [B C]].
    rewrite then_do_raised by exact B.
    change (NewFigure figure_name :: ?l) with ([NewFigure figure_name] ++ l).
    rewrite !curves_plotted_app, !saves_figure_app, !plot_raised_app, A, B, C.
    repeat split.
Qed.

(** *** Batch materialization *)

Lemma list_sum_indicator (k s m : nat) :
  list_sum (map (fun j => if j =? k then 1 else 0) (seq s m))
  = if (s <=? k) && (k <? s + m) then 1 else 0.
Proof.
  revert s; induction m as [|m IH]; intros s; simpl.
  - destruct (s <=? k) eqn:E1; destruct (k <? s + 0) eqn:E2; simpl; auto.
    apply Nat.leb_le in E1. apply Nat.ltb_lt in E2. lia.
  - rewrite IH.
    destruct (Nat.eqb_spec s k) as [->|Hne].
    + destruct (Nat.leb_spec (S k) k); [lia|].
      destruct (Nat.leb_spec k k); [|lia].
      destruct (Nat.ltb_spec k (k + S m)); [|lia]. reflexivity.
    + destruct (Nat.leb_spec s k); destruct (Nat.leb_spec (S s) k);
        destruct (Nat.ltb_spec k (S s + m)); destruct (Nat.ltb_spec k (s + S m));
        simpl; lia.
Qed.

Lemma one_hot_row_ok (n k : nat) : k < n -> one_hot_ok n (one_hot_row n k).
Proof.
  intros Hk. unfold one_hot_ok, one_hot_row. split; [|split].
  - rewrite length_map, length_seq. reflexivity.
  - rewrite list_sum_indicator.
    destruct (Nat.leb_spec 0 k); [|lia].
    destruct (Nat.ltb_spec k (0 + n)); [reflexivity|lia].
  - exists k. auto.
Qed.

Lemma to_categorical_ok (y : list Z) (n : nat) (ys : list (list nat)) :
  to_categorical y n = Some ys ->
  length ys = length y /\ Forall (one_hot_ok n) ys.
Proof.
  revert ys; induction y as [|k y IH]; intros ys H; cbn [to_categorical] in H.
  - injection H as <-. auto.
  - destruct ((- Z.of_nat n <=? k) && (k <? Z.of_nat n))%Z eqn:Hk;
      [|discriminate].
    apply andb_prop in Hk as [H1 H2].
    apply Z.leb_le in H1. apply Z.ltb_lt in H2.
    destruct (to_categorical y n) as [rs|] eqn:E; [|discriminate].
    injection H as <-. destruct (IH rs eq_refl) as [Hl Hf].
    simpl. split; [congruence|]. constructor; [apply one_hot_row_ok|exact Hf].
    destruct (Z.ltb_spec k 0); lia.
Qed.

Lemma pad_sequences_length (seqs : list (list nat)) (rows : list (list Z)) (m : nat) :
  pad_sequences seqs m = Some rows -> length rows = length seqs.
Proof.
  revert rows; induction seqs as [|s seqs IH]; intros rows H; simpl in H.
  - injection H as <-. reflexivity.
  - destruct (pad_row m s); [|discriminate].
    destruct (pad_sequences seqs m) as [rs|]; [|discriminate].
    injection H as <-. simpl. f_equal. apply IH. reflexivity.
Qed.

(** The materialized batch has one input row and one one-hot target row per
    buffered pair. *)
Lemma process_format_batch_shape p pairs vocab_size max_length X y :
  process_format_to_model_input p pairs vocab_size max_length = Batch X y ->
  length X = length pairs /\ length y = length pairs
  /\ Forall (one_hot_ok (vocab_size + 1)) y.
Proof.
  unfold process_format_to_model_input. cbn zeta.
  destruct (negb _); [discriminate|].
  destruct (pad_sequences pairs max_length) as [rows|] eqn:Ep; [|discriminate].
  unfold split_input_output. destruct max_length as [|m]; [discriminate|].
  destruct (to_categorical _ _) as [ys|] eqn:Ec; [|discriminate].
  intros H. injection H as <- <-.
  apply pad_sequences_length in Ep.
  destruct (to_categorical_ok _ _ _ Ec) as [Hl Hf].
  rewrite length_map in Hl. rewrite length_map.
  split; [exact Ep|split; [congruence|exact Hf]].
Qed.

(** *** Batch generator *)

Lemma batch_pass_full p vocab_size max_length pairs count buf X y :
  1 <= BATCH_SAMPLES_NUMBER p ->
  count = length buf -> count <= BATCH_SAMPLES_NUMBER p - 1 ->
  In (Yield X y) (batch_pass p vocab_size max_length pairs count buf) ->
  length X = BATCH_SAMPLES_NUMBER p /\ length y = BATCH_SAMPLES_NUMBER p
  /\ Forall (one_hot_ok (vocab_size + 1)) y.
Proof.
  intros HB. revert count buf.
  induction pairs as [|q pairs IH]; intros count buf Hc Hle Hin; [destruct Hin|].
  simpl in Hin.
  destruct (Nat.ltb_spec count (BATCH_SAMPLES_NUMBER p - 1)) as [Hlt|Hge].
  - apply (IH (S count) (buf ++ [q]));
      [rewrite length_app; simpl; lia | lia | exact Hin].
  - destruct (process_format_to_model_input p (buf ++ [q]) vocab_size max_length)
      as [code|X' y'|] eqn:E.
    + destruct Hin as [H|[]]. discriminate.
    + destruct Hin as [H|H].
      * injection H as <- <-.
        destruct (process_format_batch_shape _ _ _ _ _ _ E) as [H1 [H2 H3]].
        rewrite length_app in H1, H2. simpl in H1, H2.
        repeat split; auto; lia.
      * apply (IH 0 []); auto. lia.
    + destruct Hin as [H|[]]. discriminate.
Qed.

Lemma in_generate_batch_pass p encode corpus vocab_size max_length fuel k e :
  In e (generate_batch_samples_from_corpus p encode corpus vocab_size
          max_length fuel k) ->
  exists j, In e (batch_pass p vocab_size max_length
                   (generate_input_output_pair_from_corpus encode (corpus j))
                   0 []).
Proof.
  revert k; induction fuel as [|fuel IH]; intros k Hin; [destruct Hin|].
  simpl in Hin. destruct (existsb abrupt _).
  - exists k. exact Hin.
  - apply in_app_or in Hin as [Hin|Hin]; [exists k; exact Hin|].
    exact (IH (S k) Hin).
Qed.

(** C1: on a positive batch size, every batch the generator yields has
    exactly [BATCH_SAMPLES_NUMBER] input rows and [BATCH_SAMPLES_NUMBER]
    target rows, each a one-hot vector of width [vocab_size + 1] summing
    to 1; no smaller batch is ever yielded. *)
Theorem generate_batch_samples_full_batches p encode corpus vocab_size
        max_length fuel k X y
        (HB : 1 <= BATCH_SAMPLES_NUMBER p)
        (Hin : In (Yield X y)
                  (generate_batch_samples_from_corpus p encode corpus
                     vocab_size max_length fuel k)) :
  length X = BATCH_SAMPLES_NUMBER p /\ length y = BATCH_SAMPLES_NUMBER p
  /\ Forall (one_hot_ok (vocab_size + 1)) y.
Proof.
  destruct (in_generate_batch_pass _ _ _ _ _ _ _ _ Hin) as [j Hj].
  exact (batch_pass_full p vocab_size max_length _ 0 [] X y HB eq_refl
           (Nat.le_0_l _) Hj).
Qed.

Lemma generate_batch_samples_full_batches_witness :
  length [[0; 0; 1]; [0; 0; 3]; [0; 3; 4]]%Z = 3
  /\ length [one_hot_row 8 2; one_hot_row 8 4; one_hot_row 8 5] = 3
  /\ Forall (one_hot_ok 8) [one_hot_row 8 2; one_hot_row 8 4; one_hot_row 8 5].
Proof.
  apply (generate_batch_samples_full_batches scenario_parameters
           scenario_encode scenario_corpus 7 4 1 0).
  - simpl. lia.
  - vm_compute. left. reflexivity.
Defined.

(** *** Padding *)

Lemma removelast_length {A} (r : list A) : length (removelast r) = length r - 1.
Proof. rewrite removelast_firstn_len, length_firstn. lia. Qed.

Lemma Forall_firstn_skipn {A} (P : A -> Prop) (k : nat) (l : list A) :
  Forall P l -> Forall P (firstn k l) /\ Forall P (skipn k l).
Proof.
  intros H. rewrite <- (firstn_skipn k l) in H.
  apply Forall_app in H. exact H.
Qed.

Lemma Forall2_in_l {A B} (R : A -> B -> Prop) (l1 : list A) (l2 : list B) (x : A) :
  Forall2 R l1 l2 -> In x l1 -> exists y, In y l2 /\ R x y.
Proof.
  induction 1 as [|a b l1 l2 Hab _ IH]; intros Hin; [destruct Hin|].
  destruct Hin as [<-|Hin].
  - exists b. split; [left; reflexivity|exact Hab].
  - destruct (IH Hin) as [y [Hy HR]]. exists y. split; [right; exact Hy|exact HR].
Qed.

Lemma last_app_nonempty {A} (l1 l2 : list A) d :
  l2 <> [] -> last (l1 ++ l2) d = last l2 d.
Proof.
  intros H2. induction l1 as [|a l1 IH]; [reflexivity|].
  simpl. rewrite IH. destruct (l1 ++ l2) eqn:E; [|reflexivity].
  apply app_eq_nil in E. destruct E. contradiction.
Qed.

Lemma last_skipn {A} (k : nat) (s : list A) d :
  k < length s -> last (skipn k s) d = last s d.
Proof.
  revert s; induction k as [|k IH]; intros s Hk; [reflexivity|].
  destruct s as [|a s]; simpl in Hk; [lia|].
  simpl skipn. rewrite IH by lia.
  destruct s; simpl in Hk; [lia|reflexivity].
Qed.

Lemma to_int32_small (v : nat) :
  (Z.of_nat v < 2 ^ 31)%Z -> to_int32 v = Some (Z.of_nat v).
Proof.
  intros H. unfold to_int32. cbn zeta.
  assert (H63 : (2 ^ 31 < 2 ^ 63)%Z) by reflexivity.
  assert (H32 : (2 ^ 31 < 2 ^ 32)%Z) by reflexivity.
  rewrite (proj2 (Z.ltb_lt _ _)) by lia.
  rewrite Z.mod_small by lia.
  rewrite (proj2 (Z.ltb_lt _ _) H). reflexivity.
Qed.

Lemma to_int32_list_small (s : list nat) :
  int32_tokens s -> to_int32_list s = Some (map Z.of_nat s).
Proof.
  induction 1 as [|v s Hv _ IH]; [reflexivity|].
  cbn [to_int32_list]. rewrite to_int32_small by exact Hv. rewrite IH.
  reflexivity.
Qed.

Lemma to_int32_list_length (s : list nat) (t : list Z) :
  to_int32_list s = Some t -> length t = length s.
Proof.
  revert t; induction s as [|v s IH]; intros t H; cbn [to_int32_list] in H.
  - injection H as <-. reflexivity.
  - destruct (to_int32 v); [|discriminate].
    destruct (to_int32_list s) as [ts|]; [|discriminate].
    injection H as <-. simpl. f_equal. apply IH. reflexivity.
Qed.

Lemma to_int32_list_last (s : list nat) (t : list Z) :
  to_int32_list s = Some t -> s <> [] -> to_int32 (last s 0) = Some (last t 0%Z).
Proof.
  revert t; induction s as [|v s IH]; intros t H Hne; [contradiction|].
  cbn [to_int32_list] in H.
  destruct (to_int32 v) as [z|] eqn:Ev; [|discriminate].
  destruct (to_int32_list s) as [ts|] eqn:E; [|discriminate].
  injection H as <-. destruct s as [|v' s'].
  - cbn [to_int32_list] in E. injection E as <-. exact Ev.
  - destruct ts as [|t' ts'].
    + apply to_int32_list_length in E. discriminate.
    + change (last (v :: v' :: s') 0) with (last (v' :: s') 0).
      change (last (z :: t' :: ts') 0%Z) with (last (t' :: ts') 0%Z).
      apply IH; [reflexivity|discriminate].
Qed.

(** What [pad_row] returns: the int32 conversion of the kept tokens, after
    the padding zeros. *)
Lemma pad_row_some (m : nat) (s : list nat) (r : list Z) :
  pad_row m s = Some r ->
  exists trunc, to_int32_list (skipn (length s - m) s) = Some trunc
                /\ r = repeat 0%Z (m - length s) ++ trunc.
Proof.
  destruct s as [|a s]; intros H.
  - injection H as <-. exists []. split; [reflexivity|].
    rewrite app_nil_r, Nat.sub_0_r. reflexivity.
  - destruct m as [|m']; [discriminate|]. unfold pad_row in H.
    destruct (to_int32_list (skipn (length (a :: s) - S m') (a :: s)))
      as [trunc|] eqn:E; [|discriminate].
    injection H as <-. exists trunc. split; [reflexivity|].
    pose proof (to_int32_list_length _ _ E) as Hl.
    rewrite length_skipn in Hl.
    change (match length trunc with 0 => S m' | S l => m' - l end)
      with (S m' - length trunc).
    replace (S m' - length trunc) with (S m' - length (a :: s));
      [reflexivity|rewrite Hl; cbn [length]; lia].
Qed.

Lemma pad_sequences_some (m : nat) (seqs : list (list nat)) (rows : list (list Z)) :
  pad_sequences seqs m = Some rows ->
  Forall2 (fun s r => exists trunc,
               to_int32_list (skipn (length s - m) s) = Some trunc
               /\ r = repeat 0%Z (m - length s) ++ trunc) seqs rows.
Proof.
  revert rows; induction seqs as [|s seqs IH]; intros rows H; simpl in H.
  - injection H as <-. constructor.
  - destruct (pad_row m s) as [r|] eqn:Er; [|discriminate].
    destruct (pad_sequences seqs m) as [rs|]; [|discriminate].
    injection H as <-. constructor; [apply pad_row_some, Er|apply IH; reflexivity].
Qed.

Lemma pad_row_spec (m : nat) (s : list nat) :
  1 <= m -> int32_tokens s -> pad_row m s = Some (padded_row m s).
Proof.
  intros Hm Hs. unfold padded_row. destruct s as [|a s].
  - simpl. rewrite app_nil_r, Nat.sub_0_r. reflexivity.
  - destruct m as [|m']; [lia|]. unfold pad_row.
    rewrite to_int32_list_small.
    + rewrite length_map, length_skipn. f_equal. f_equal. f_equal.
      simpl length. lia.
    + exact (proj2 (Forall_firstn_skipn _ _ _ Hs)).
Qed.

Lemma pad_sequences_spec (m : nat) (seqs : list (list nat)) :
  1 <= m -> Forall int32_tokens seqs ->
  pad_sequences seqs m = Some (map (padded_row m) seqs).
Proof.
  intros Hm. induction 1 as [|s seqs Hs _ IH]; [reflexivity|].
  simpl. rewrite pad_row_spec, IH by assumption. reflexivity.
Qed.

Lemma padded_row_length (m : nat) (s : list nat) :
  length (padded_row m s) = m.
Proof.
  unfold padded_row. rewrite length_app, repeat_length, length_map, length_skipn.
  lia.
Qed.

(** C3, as stated, fails: in the spec's scenario ([max_length = 4]) the
    code pads every pair to 4 elements, not 3, and the input matrix is the
    first three columns, not two. *)
Lemma scenario_padding_counterexample :
  pad_sequences [[1; 2]; [3; 4]; [3; 4; 5]] 4
  = Some [[0; 0; 1; 2]; [0; 0; 3; 4]; [0; 3; 4; 5]]%Z
  /\ pad_sequences [[1; 2]; [3; 4]; [3; 4; 5]] 4
     <> Some [[0; 1; 2]; [0; 3; 4]; [3; 4; 5]]%Z
  /\ (forall y, process_format_to_model_input scenario_parameters
                  [[1; 2]; [3; 4]; [3; 4; 5]] 7 4
                <> Batch [[0; 1]; [0; 3]; [3; 4]]%Z y).
Proof.
  split; [reflexivity|split; [discriminate|]].
  intros y. vm_compute. discriminate.
Qed.

(** C3, amended: when materialization returns a batch, [max_length >= 1]
    and every pair is left-padded with 0 (left-truncated if longer) to
    exactly [max_length] elements, its kept tokens converted to int32 (so
    for tokens below [2^31] the row is [padded_row max_length s]); the input
    matrix is all but the last column ([max_length - 1] columns) and the
    targets are the one-hot encoding of the last column. *)
Theorem process_format_pads_to_max_length p pairs vocab_size max_length X y
        (Hout : process_format_to_model_input p pairs vocab_size max_length
                = Batch X y) :
  1 <= max_length
  /\ exists rows,
       pad_sequences pairs max_length = Some rows
       /\ Forall2 (fun s r => exists trunc,
                      to_int32_list (skipn (length s - max_length) s)
                      = Some trunc
                      /\ r = repeat 0%Z (max_length - length s) ++ trunc)
                  pairs rows
       /\ (Forall int32_tokens pairs -> rows = map (padded_row max_length) pairs)
       /\ Forall (fun r => length r = max_length) rows
       /\ X = map (@removelast Z) rows
       /\ Forall (fun r => length r = max_length - 1) X
       /\ to_categorical (map (fun r => last r 0%Z) rows) (vocab_size + 1)
          = Some y.
Proof.
  unfold process_format_to_model_input in Hout. cbn zeta in Hout.
  destruct (negb _); [discriminate|].
  destruct (pad_sequences pairs max_length) as [rows|] eqn:Ep; [|discriminate].
  unfold split_input_output in Hout.
  destruct max_length as [|m]; [discriminate|].
  destruct (to_categorical _ _) as [ys|] eqn:Ec; [|discriminate].
  injection Hout as <- <-.
  pose proof (pad_sequences_some _ _ _ Ep) as H2.
  assert (Hw : Forall (fun r => length r = S m) rows).
  { clear -H2. induction H2 as [|s r seqs rs [t [Et ->]] _ IH];
      constructor; [|exact IH].
    apply to_int32_list_length in Et. rewrite length_skipn in Et.
    rewrite length_app, repeat_length. lia. }
  split; [lia|]. exists rows.
  split; [reflexivity|]. split; [exact H2|]. split.
  { intros Hs. rewrite pad_sequences_spec in Ep by (lia || exact Hs).
    injection Ep as <-. reflexivity. }
  split; [exact Hw|]. split; [reflexivity|]. split; [|exact Ec].
  apply Forall_map. revert Hw. apply Forall_impl. intros r Hr.
  rewrite removelast_length, Hr. reflexivity.
Qed.

Lemma process_format_pads_to_max_length_witness :
  1 <= 4
  /\ exists rows,
       pad_sequences [[1; 2]; [3; 4]; [3; 4; 5]] 4 = Some rows
       /\ Forall2 (fun s r => exists trunc,
                      to_int32_list (skipn (length s - 4) s) = Some trunc
                      /\ r = repeat 0%Z (4 - length s) ++ trunc)
                  [[1; 2]; [3; 4]; [3; 4; 5]] rows
       /\ (Forall int32_tokens [[1; 2]; [3; 4]; [3; 4; 5]] ->
           rows = map (padded_row 4) [[1; 2]; [3; 4]; [3; 4; 5]])
       /\ Forall (fun r => length r = 4) rows
       /\ [[0; 0; 1]; [0; 0; 3]; [0; 3; 4]]%Z = map (@removelast Z) rows
       /\ Forall (fun r => length r = 4 - 1) [[0; 0; 1]; [0; 0; 3]; [0; 3; 4]]%Z
       /\ to_categorical (map (fun r => last r 0%Z) rows) (7 + 1)
          = Some [one_hot_row 8 2; one_hot_row 8 4; one_hot_row 8 5].
Proof.
  apply (process_format_pads_to_max_length scenario_parameters
           [[1; 2]; [3; 4]; [3; 4; 5]] 7 4).
  vm_compute. reflexivity.
Defined.

(** *** Memory-ceiling guard *)

Lemma process_format_exit_iff p pairs vocab_size max_length code :
  process_format_to_model_input p pairs vocab_size max_length = Exit code
  <-> code = 0%Z
      /\ (Y_MEMORY_SIZE_THRESHOLD_GB p
          < get_array_memory_size [Z.of_nat (length pairs);
                                   Z.of_nat (vocab_size + 1)] 8)%Q.
Proof.
  unfold process_format_to_model_input. cbn zeta.
  destruct (Qle_bool _ _) eqn:Eq; simpl.
  - apply Qle_bool_iff in Eq. split.
    + repeat match goal with
             | |- context [match ?x with _ => _ end] => destruct x
             end; discriminate.
    + intros [_ Hlt]. exfalso. apply (Qlt_not_le _ _ Hlt Eq).
  - split.
    + intros H. injection H as <-. split; [reflexivity|].
      apply Qnot_le_lt. intros Hle. apply Qle_bool_iff in Hle. congruence.
    + intros [-> _]. reflexivity.
Qed.

(** C9: the guard stops the process exactly when the projected footprint
    strictly exceeds the ceiling (a footprint equal to it goes on), and it
    always stops with exit status 0. *)
Theorem memory_guard_threshold p pairs vocab_size max_length :
  let footprint := get_array_memory_size [Z.of_nat (length pairs);
                                          Z.of_nat (vocab_size + 1)] 8 in
  (forall code, process_format_to_model_input p pairs vocab_size max_length
                = Exit code -> code = 0%Z)
  /\ (process_format_to_model_input p pairs vocab_size max_length = Exit 0
      <-> (Y_MEMORY_SIZE_THRESHOLD_GB p < footprint)%Q)
  /\ ((footprint == Y_MEMORY_SIZE_THRESHOLD_GB p)%Q ->
      forall code, process_format_to_model_input p pairs vocab_size max_length
                   <> Exit code).
Proof.
  intros footprint. split; [|split].
  - intros code H. apply process_format_exit_iff in H. apply H.
  - rewrite process_format_exit_iff. tauto.
  - intros Heq code H. apply process_format_exit_iff in H.
    destruct H as [_ Hlt]. rewrite <- Heq in Hlt.
    exact (Qlt_irrefl _ Hlt).
Qed.

Lemma batch_pass_exits p vocab_size max_length pairs count buf :
  1 <= BATCH_SAMPLES_NUMBER p ->
  count = length buf -> count <= BATCH_SAMPLES_NUMBER p - 1 ->
  (forall b, length b = BATCH_SAMPLES_NUMBER p ->
             process_format_to_model_input p b vocab_size max_length = Exit 0) ->
  batch_pass p vocab_size max_length pairs count buf = []
  \/ batch_pass p vocab_size max_length pairs count buf = [Stop 0].
Proof.
  intros HB Hc Hle Hexit. revert count buf Hc Hle.
  induction pairs as [|q pairs IH]; intros count buf Hc Hle; [left; reflexivity|].
  simpl.
  destruct (Nat.ltb_spec count (BATCH_SAMPLES_NUMBER p - 1)) as [Hlt|Hge].
  - apply IH; [rewrite length_app; simpl; lia | lia].
  - rewrite Hexit by (rewrite length_app; simpl; lia). right. reflexivity.
Qed.

(** C4: when the ceiling is below the footprint of a full batch
    ([BATCH_SAMPLES_NUMBER] rows of [vocab_size + 1] 8-byte elements),
    materializing any full batch stops the process whatever the pairs and
    [max_length] (padding and one-hot encoding are never reached), and the
    generator never yields: it either has not yet gathered a full batch or
    it has stopped once, with no retry. *)
Theorem memory_ceiling_stops_generator p encode corpus vocab_size max_length
        fuel k
        (HB : 1 <= BATCH_SAMPLES_NUMBER p)
        (Hover : (Y_MEMORY_SIZE_THRESHOLD_GB p
                  < get_array_memory_size
                      [Z.of_nat (BATCH_SAMPLES_NUMBER p);
                       Z.of_nat (vocab_size + 1)] 8)%Q) :
  (forall pairs max_length',
      length pairs = BATCH_SAMPLES_NUMBER p ->
      process_format_to_model_input p pairs vocab_size max_length' = Exit 0)
  /\ (generate_batch_samples_from_corpus p encode corpus vocab_size max_length
        fuel k = []
      \/ generate_batch_samples_from_corpus p encode corpus vocab_size
           max_length fuel k = [Stop 0]).
Proof.
  assert (Hexit : forall pairs max_length',
             length pairs = BATCH_SAMPLES_NUMBER p ->
             process_format_to_model_input p pairs vocab_size max_length'
             = Exit 0).
  { intros pairs m' Hl. apply process_format_exit_iff.
    rewrite Hl. split; [reflexivity | exact Hover]. }
  split; [exact Hexit|].
  revert k; induction fuel as [|fuel IH]; intros k; [left; reflexivity|].
  simpl.
  destruct (batch_pass_exits p vocab_size max_length
              (generate_input_output_pair_from_corpus encode (corpus k)) 0 []
              HB eq_refl (Nat.le_0_l _) (fun b Hb => Hexit b max_length Hb))
    as [E|E]; rewrite E; simpl.
  - apply IH.
  - right. reflexivity.
Qed.

Lemma memory_ceiling_stops_generator_witness :
  let p := {| BATCH_SAMPLES_NUMBER := 3; Y_MEMORY_SIZE_THRESHOLD_GB := 0 |} in
  (forall pairs max_length',
      length pairs = 3 ->
      process_format_to_model_input p pairs 7 max_length' = Exit 0)
  /\ (generate_batch_samples_from_corpus p scenario_encode scenario_corpus 7 4
        5 0 = []
      \/ generate_batch_samples_from_corpus p scenario_encode scenario_corpus
           7 4 5 0 = [Stop 0]).
Proof.
  apply (memory_ceiling_stops_generator
           {| BATCH_SAMPLES_NUMBER := 3; Y_MEMORY_SIZE_THRESHOLD_GB := 0 |}
           scenario_encode scenario_corpus 7 4 5 0).
  - simpl. lia.
  - vm_compute. reflexivity.
Defined.

(** *** Short corpora *)

Lemma batch_pass_short p vocab_size max_length pairs count buf :
  count + length pairs < BATCH_SAMPLES_NUMBER p ->
  batch_pass p vocab_size max_length pairs count buf = [].
Proof.
  revert count buf; induction pairs as [|q pairs IH]; intros count buf H;
    [reflexivity|].
  simpl in H |- *.
  destruct (Nat.ltb_spec count (BATCH_SAMPLES_NUMBER p - 1)); [|lia].
  apply IH. lia.
Qed.

(** C10: when every scan of the corpus gives fewer than
    [BATCH_SAMPLES_NUMBER] pairs, the generator yields nothing however many
    passes it makes: each pass starts again from an empty buffer. *)
Theorem short_corpus_never_yields p encode corpus vocab_size max_length
        fuel k
        (Hshort : forall j,
            length (generate_input_output_pair_from_corpus encode (corpus j))
            < BATCH_SAMPLES_NUMBER p) :
  generate_batch_samples_from_corpus p encode corpus vocab_size max_length
    fuel k = [].
Proof.
  revert k; induction fuel as [|fuel IH]; intros k; [reflexivity|].
  simpl. rewrite batch_pass_short by (simpl; apply Hshort).
  simpl. apply IH.
Qed.

Lemma short_corpus_never_yields_witness :
  generate_batch_samples_from_corpus
    {| BATCH_SAMPLES_NUMBER := 5; Y_MEMORY_SIZE_THRESHOLD_GB := 1 |}
    scenario_encode scenario_corpus 7 4 100 0 = [].
Proof.
  apply short_corpus_never_yields.
  intros j. apply Nat.ltb_lt. vm_compute. reflexivity.
Defined.

(** ** Further properties of the pipeline *)

(** *** Corpus text source *)

Lemma read_files_ok read_file filenames texts :
  Forall2 (fun f t => read_file f = Some t) filenames texts ->
  read_files read_file filenames = (texts, false).
Proof.
  induction 1 as [|f t fs ts Hf _ IH]; [reflexivity|].
  simpl. rewrite Hf, IH. reflexivity.
Qed.

Lemma read_files_raise read_file pre f post texts :
  Forall2 (fun f t => read_file f = Some t) pre texts ->
  read_file f = None ->
  read_files read_file (pre ++ f :: post) = (texts, true).
Proof.
  intros Hpre Hf. induction Hpre as [|g t gs ts Hg _ IH]; simpl.
  - rewrite Hf. reflexivity.
  - rewrite Hg, IH. reflexivity.
Qed.

(** The text source yields the contents of the scanned files in scan order;
    when a file cannot be read, it yields the contents of the files before
    it and then raises, never reaching the files after it. *)
Theorem generate_text_from_corpus_scan_order fs read_file path :
  let filenames := get_filenames_under_path fs path in
  (forall texts, Forall2 (fun f t => read_file f = Some t) filenames texts ->
     generate_text_from_corpus fs read_file path = (texts, false))
  /\ (forall pre f post texts,
        filenames = pre ++ f :: post ->
        Forall2 (fun f t => read_file f = Some t) pre texts ->
        read_file f = None ->
        generate_text_from_corpus fs read_file path = (texts, true)).
Proof.
  intros filenames. unfold generate_text_from_corpus. split.
  - apply read_files_ok.
  - intros pre f post texts E Hpre Hf. fold filenames. rewrite E.
    apply read_files_raise; assumption.
Qed.

(** *** Newline splitting *)

Lemma split_aux_nonempty s cur in_run :
  split_newline_runs_aux s cur in_run <> [].
Proof.
  revert cur in_run; induction s as [|c s IH]; intros cur in_run; simpl.
  - discriminate.
  - destruct (Ascii.eqb c newline); [destruct in_run|]; auto; discriminate.
Qed.

Lemma join_lines_cons piece rest :
  rest <> [] -> join_lines (piece :: rest) = piece ++ newline :: join_lines rest.
Proof. destruct rest; [contradiction|reflexivity]. Qed.

Lemma collapse_newline_cons r :
  collapse_newline_runs (newline :: r)
  = newline :: collapse_newline_runs (drop_newlines r).
Proof.
  induction r as [|c r IH]; [reflexivity|].
  change (collapse_newline_runs (newline :: c :: r))
    with (if Ascii.eqb newline newline && Ascii.eqb c newline
          then collapse_newline_runs (c :: r)
          else newline :: collapse_newline_runs (c :: r)).
  rewrite Ascii.eqb_refl. cbn [andb].
  destruct (Ascii.eqb c newline) eqn:Hc.
  - apply Ascii.eqb_eq in Hc. subst c. rewrite IH.
    cbn [drop_newlines]. rewrite Ascii.eqb_refl. reflexivity.
  - cbn [drop_newlines]. rewrite Hc. reflexivity.
Qed.

Lemma collapse_other_cons c r :
  c <> newline -> collapse_newline_runs (c :: r) = c :: collapse_newline_runs r.
Proof.
  intros Hc. destruct r as [|c2 r]; [reflexivity|].
  apply Ascii.eqb_neq in Hc. simpl. rewrite Hc. reflexivity.
Qed.

Lemma split_join_aux (s : list ascii) :
  (forall cur, join_lines (split_newline_runs_aux s cur false)
               = rev cur ++ collapse_newline_runs s)
  /\ join_lines (split_newline_runs_aux s [] true)
     = collapse_newline_runs (drop_newlines s).
Proof.
  induction s as [|c r [IHA IHB]].
  - split; [intros cur; simpl; symmetry; apply app_nil_r | reflexivity].
  - destruct (Ascii.eqb_spec c newline) as [->|Hc].
    + cbn [split_newline_runs_aux drop_newlines]. rewrite Ascii.eqb_refl.
      cbv beta iota. split; [|exact IHB].
      intros cur. rewrite join_lines_cons by apply split_aux_nonempty.
      rewrite IHB, collapse_newline_cons. reflexivity.
    + pose proof Hc as Hc'. apply Ascii.eqb_neq in Hc'.
      cbn [split_newline_runs_aux drop_newlines]. rewrite Hc'.
      cbv beta iota. split.
      * intros cur. rewrite IHA, collapse_other_cons by exact Hc.
        simpl. rewrite <- app_assoc. reflexivity.
      * rewrite IHA, collapse_other_cons by exact Hc. reflexivity.
Qed.

Lemma split_aux_no_newline_pieces s cur in_run :
  ~ In newline cur ->
  Forall (fun piece => ~ In newline piece) (split_newline_runs_aux s cur in_run).
Proof.
  revert cur in_run; induction s as [|c s IH]; intros cur in_run Hcur; simpl.
  - constructor; [|constructor]. rewrite <- in_rev. exact Hcur.
  - destruct (Ascii.eqb_spec c newline) as [->|Hc].
    + destruct in_run; [apply IH; exact Hcur|].
      constructor; [rewrite <- in_rev; exact Hcur|]. apply IH. intros [].
    + apply IH. intros [H|H]; [congruence|contradiction].
Qed.

(** Splitting on newline runs loses only the length of each run: no piece
    contains a newline, and joining the pieces with single newlines gives
    back the document with every run of newlines collapsed to one. *)
Theorem match_newline_pattern_split_join (text : document) :
  Forall (fun piece => ~ In newline piece) (match_newline_pattern_split text)
  /\ join_lines (match_newline_pattern_split text)
     = collapse_newline_runs text.
Proof.
  split.
  - apply split_aux_no_newline_pieces. intros [].
  - apply (proj1 (split_join_aux text) []).
Qed.

(** *** Generated pairs *)

(** Every generated pair is [encoded[: i + 1]] for a segment [seg] of a
    document of the corpus, with [1 <= i < len(encoded)]: a prefix of the
    segment's encoding of length at least 2. *)
Theorem corpus_pairs_are_prefixes encode docs pair
        (Hin : In pair (generate_input_output_pair_from_corpus encode docs)) :
  exists doc seg i,
    In doc docs /\ In seg (segments doc)
    /\ 1 <= i < length (encode seg)
    /\ pair = firstn (i + 1) (encode seg)
    /\ length pair = i + 1.
Proof.
  unfold generate_input_output_pair_from_corpus in Hin.
  apply in_flat_map in Hin as [doc [Hdoc Hin]].
  rewrite pairs_of_text_segments in Hin.
  apply in_flat_map in Hin as [seg [Hseg Hin]].
  unfold pairs_of_encoded in Hin.
  apply in_map_iff in Hin as [i [<- Hi]]. apply in_seq in Hi.
  exists doc, seg, i. repeat split; auto; try lia.
  rewrite length_firstn. lia.
Qed.

Lemma corpus_pairs_are_prefixes_witness :
  exists doc seg i,
    In doc (scenario_corpus 0) /\ In seg (segments doc)
    /\ 1 <= i < length (scenario_encode seg)
    /\ [3; 4; 5] = firstn (i + 1) (scenario_encode seg)
    /\ length [3; 4; 5] = i + 1.
Proof.
  apply (corpus_pairs_are_prefixes scenario_encode (scenario_corpus 0)).
  vm_compute. in_list.
Defined.

Lemma pairs_nonempty encode docs :
  Forall (fun s => s <> []) (generate_input_output_pair_from_corpus encode docs).
Proof.
  apply Forall_forall. intros pair Hin.
  unfold generate_input_output_pair_from_corpus in Hin.
  apply in_flat_map in Hin as [doc [_ Hin]].
  rewrite pairs_of_text_segments in Hin.
  apply in_flat_map in Hin as [seg [_ Hin]].
  unfold pairs_of_encoded in Hin.
  apply in_map_iff in Hin as [i [<- Hi]]. apply in_seq in Hi.
  intros E. apply (f_equal (@length nat)) in E.
  rewrite length_firstn in E. simpl in E. lia.
Qed.

(** The corpus gives, over all documents and all their segments, one pair
    fewer than the number of tokens of each segment (none for a segment of
    at most one token). *)
Theorem corpus_pair_count encode docs :
  length (generate_input_output_pair_from_corpus encode docs)
  = list_sum (map (fun doc => list_sum (map (fun seg => length (encode seg) - 1)
                                            (segments doc)))
                  docs).
Proof.
  unfold generate_input_output_pair_from_corpus.
  rewrite length_flat_map. f_equal. apply map_ext. intros doc.
  rewrite pairs_of_text_segments, length_flat_map. f_equal.
  apply map_ext. intros seg. unfold pairs_of_encoded.
  rewrite length_map, length_seq. reflexivity.
Qed.

(** *** Materialization: when it succeeds, when it raises *)

Lemma last_map_of_nat (l : list nat) (d : nat) :
  last (map Z.of_nat l) (Z.of_nat d) = Z.of_nat (last l d).
Proof.
  induction l as [|a l IH]; [reflexivity|].
  destruct l as [|b l]; [reflexivity|]. exact IH.
Qed.

Lemma last_padded_row (m : nat) (s : list nat) :
  1 <= m -> s <> [] -> last (padded_row m s) 0%Z = Z.of_nat (last s 0).
Proof.
  intros Hm Hs. assert (Hl : 0 < length s) by (destruct s; [contradiction|simpl; lia]).
  unfold padded_row. rewrite last_app_nonempty.
  - change 0%Z with (Z.of_nat 0). rewrite last_map_of_nat.
    rewrite last_skipn by lia. reflexivity.
  - intros E. apply (f_equal (@length Z)) in E.
    rewrite length_map, length_skipn in E. simpl in E. lia.
Qed.

Lemma to_categorical_in_range (ys : list Z) (n : nat) :
  Forall (fun k => 0 <= k < Z.of_nat n)%Z ys ->
  to_categorical ys n = Some (map (fun k => one_hot_row n (Z.to_nat k)) ys).
Proof.
  induction 1 as [|k ys Hk _ IH]; [reflexivity|].
  cbn [to_categorical].
  rewrite (proj2 (Z.leb_le _ _)) by lia. rewrite (proj2 (Z.ltb_lt k _)) by lia.
  rewrite (proj2 (Z.ltb_ge k 0)) by lia. simpl andb. rewrite IH. reflexivity.
Qed.

Lemma to_categorical_out_of_range (y : list Z) (n : nat) (k : Z) :
  In k y -> (Z.of_nat n <= k)%Z -> to_categorical y n = None.
Proof.
  induction y as [|k' y IH]; intros Hin Hk; [destruct Hin|].
  cbn [to_categorical]. destruct Hin as [<-|Hin].
  - rewrite (proj2 (Z.ltb_ge _ _) Hk), andb_false_r. reflexivity.
  - rewrite (IH Hin Hk). destruct (_ && _); reflexivity.
Qed.

Lemma guard_passes (p : parameters) (pairs : list (list nat)) (vocab_size : nat) :
  (get_array_memory_size [Z.of_nat (length pairs); Z.of_nat (vocab_size + 1)] 8
   <= Y_MEMORY_SIZE_THRESHOLD_GB p)%Q ->
  Qle_bool (get_array_memory_size [Z.of_nat (length pairs);
                                   Z.of_nat (vocab_size + 1)] 8)
           (Y_MEMORY_SIZE_THRESHOLD_GB p) = true.
Proof. apply Qle_bool_iff. Qed.

(* Under the ceiling, with [max_length >= 1] and non-empty pairs whose
    tokens fit in an int32 and whose target token is at most [vocab_size],
    materialization returns the batch whose input rows are the
    left-padded/truncated pairs without their last element and whose target
    rows are the one-hot encodings of each pair's own last token
    (truncation never loses the target). *)
Lemma process_format_batch p pairs vocab_size max_length
        (Hm : 1 <= max_length)
        (Hpairs : Forall (fun s => s <> [] /\ last s 0 <= vocab_size
                                   /\ int32_tokens s) pairs)
        (Hmem : (get_array_memory_size [Z.of_nat (length pairs);
                                        Z.of_nat (vocab_size + 1)] 8
                 <= Y_MEMORY_SIZE_THRESHOLD_GB p)%Q) :
  process_format_to_model_input p pairs vocab_size max_length
  = Batch (padded_inputs max_length pairs) (one_hot_targets vocab_size pairs).
Proof.
  unfold process_format_to_model_input. cbn zeta.
  rewrite guard_passes by exact Hmem. simpl negb. cbv iota.
  rewrite pad_sequences_spec
    by (exact Hm || (revert Hpairs; apply Forall_impl; tauto)).
  destruct max_length as [|m]; [lia|]. unfold split_input_output.
  rewrite Forall_forall in Hpairs.
  rewrite to_categorical_in_range.
  - unfold padded_inputs, one_hot_targets. rewrite !map_map. f_equal.
    apply map_ext_in. intros s Hs. destruct (Hpairs s Hs) as [Hne _].
    rewrite last_padded_row by (lia || exact Hne). rewrite Nat2Z.id.
    reflexivity.
  - rewrite map_map. apply Forall_map. apply Forall_forall.
    intros s Hs. destruct (Hpairs s Hs) as [Hne [Hle _]].
    rewrite last_padded_row by (lia || exact Hne). lia.
Qed.

(** Under the ceiling, with [max_length >= 1] and non-empty pairs whose
    tokens fit in an int32 and whose target token is at most [vocab_size],
    materialization returns the batch whose input rows are the
    left-padded/truncated pairs without their last element and whose target
    rows are the one-hot encodings of each pair's own last token
    (truncation never loses the target). *)
Theorem process_format_batch_contents p pairs vocab_size max_length
        (Hm : 1 <= max_length)
        (Hpairs : Forall (fun s => s <> [] /\ last s 0 <= vocab_size
                                   /\ int32_tokens s) pairs)
        (Hmem : (get_array_memory_size [Z.of_nat (length pairs);
                                        Z.of_nat (vocab_size + 1)] 8
                 <= Y_MEMORY_SIZE_THRESHOLD_GB p)%Q) :
  process_format_to_model_input p pairs vocab_size max_length
  = Batch (padded_inputs max_length pairs) (one_hot_targets vocab_size pairs).
Proof.
  unfold process_format_to_model_input. cbn zeta.
  rewrite guard_passes by exact Hmem. simpl negb. cbv iota.
  rewrite pad_sequences_spec
    by (exact Hm || (revert Hpairs; apply Forall_impl; tauto)).
  destruct max_length as [|m]; [lia|]. unfold split_input_output.
  rewrite Forall_forall in Hpairs.
  rewrite to_categorical_in_range.
  - unfold padded_inputs, one_hot_targets. rewrite !map_map. f_equal.
    apply map_ext_in. intros s Hs. destruct (Hpairs s Hs) as [Hne _].
    rewrite last_padded_row by (lia || exact Hne). rewrite Nat2Z.id.
    reflexivity.
  - rewrite map_map. apply Forall_map. apply Forall_forall.
    intros s Hs. destruct (Hpairs s Hs) as [Hne [Hle _]].
    rewrite last_padded_row by (lia || exact Hne). lia.
Qed.

Lemma process_format_batch_contents_witness :
  process_format_to_model_input scenario_parameters
    [[1; 2]; [3; 4]; [3; 4; 5]; [6; 7]] 7 2
  = Batch (padded_inputs 2 [[1; 2]; [3; 4]; [3; 4; 5]; [6; 7]])
          (one_hot_targets 7 [[1; 2]; [3; 4]; [3; 4; 5]; [6; 7]]).
Proof.
  apply process_format_batch_contents.
  - lia.
  - repeat constructor; try discriminate; simpl; lia.
  - vm_compute. discriminate.
Defined.

(** Once the guard lets a buffer through, [max_length = 0] always makes
    materialization raise, and so does, for [max_length >= 1] and
    non-empty pairs, any pair whose target token exceeds [vocab_size] while
    fitting in an int32. *)
Theorem process_format_raises p pairs vocab_size max_length
        (Hmem : (get_array_memory_size [Z.of_nat (length pairs);
                                        Z.of_nat (vocab_size + 1)] 8
                 <= Y_MEMORY_SIZE_THRESHOLD_GB p)%Q) :
  (max_length = 0 ->
   process_format_to_model_input p pairs vocab_size max_length = Fail)
  /\ (1 <= max_length -> Forall (fun s => s <> []) pairs ->
      Exists (fun s => vocab_size < last s 0
                       /\ (Z.of_nat (last s 0%nat) < 2 ^ 31)%Z) pairs ->
      process_format_to_model_input p pairs vocab_size max_length = Fail).
Proof.
  unfold process_format_to_model_input. cbn zeta.
  rewrite guard_passes by exact Hmem. simpl negb. cbv iota. split.
  - intros ->. destruct (pad_sequences pairs 0); reflexivity.
  - intros Hm Hne Hex.
    destruct (pad_sequences pairs max_length) as [rows|] eqn:Ep; [|reflexivity].
    destruct max_length as [|m]; [lia|]. unfold split_input_output.
    apply Exists_exists in Hex as [s [Hs [Hgt Hsmall]]].
    rewrite Forall_forall in Hne. specialize (Hne s Hs).
    destruct (Forall2_in_l _ _ _ _ (pad_sequences_some _ _ _ Ep) Hs)
      as [r [Hr [t [Et ->]]]].
    assert (Hl : 0 < length s) by (destruct s; [contradiction|simpl; lia]).
    assert (Ht : t <> []).
    { intros ->. apply to_int32_list_length in Et.
      rewrite length_skipn in Et. simpl in Et. lia. }
    assert (Hlast : last (repeat 0%Z (S m - length s) ++ t) 0%Z
                    = Z.of_nat (last s 0)).
    { rewrite last_app_nonempty by exact Ht.
      apply to_int32_list_last in Et.
      - rewrite last_skipn, to_int32_small in Et by (lia || exact Hsmall).
        injection Et as Et. symmetry. exact Et.
      - intros E. apply (f_equal (@length nat)) in E.
        rewrite length_skipn in E. simpl in E. lia. }
    rewrite (to_categorical_out_of_range _ _ (Z.of_nat (last s 0))).
    + reflexivity.
    + apply in_map_iff. exists (repeat 0%Z (S m - length s) ++ t).
      split; [exact Hlast|exact Hr].
    + lia.
Qed.

Lemma process_format_raises_witness :
  (0 = 0 ->
   process_format_to_model_input scenario_parameters [[1; 2]; [3; 9]] 7 0
   = Fail)
  /\ (1 <= 3 -> Forall (fun s => s <> []) [[1; 2]; [3; 9]] ->
      Exists (fun s => 7 < last s 0 /\ (Z.of_nat (last s 0%nat) < 2 ^ 31)%Z)
             [[1; 2]; [3; 9]] ->
      process_format_to_model_input scenario_parameters [[1; 2]; [3; 9]] 7 3
      = Fail).
Proof.
  split.
  - apply (process_format_raises scenario_parameters [[1; 2]; [3; 9]] 7 0).
    vm_compute. discriminate.
  - apply (process_format_raises scenario_parameters [[1; 2]; [3; 9]] 7 3).
    vm_compute. discriminate.
Defined.

(** *** Batches of one pass *)

Lemma firstn_plus {A} (n m : nat) (l : list A) :
  firstn (n + m) l = firstn n l ++ firstn m (skipn n l).
Proof.
  revert l; induction n as [|n IH]; intros l; [reflexivity|].
  destruct l as [|a l]; simpl; [destruct m; reflexivity|].
  rewrite IH. reflexivity.
Qed.

(** Filling the buffer up to [BATCH_SAMPLES_NUMBER] pairs materializes it
    and starts again from an empty buffer. *)
Lemma batch_pass_fill p vocab_size max_length pre rest count buf X y :
  count = length buf -> count + length pre = BATCH_SAMPLES_NUMBER p ->
  pre <> [] ->
  process_format_to_model_input p (buf ++ pre) vocab_size max_length
  = Batch X y ->
  batch_pass p vocab_size max_length (pre ++ rest) count buf
  = Yield X y :: batch_pass p vocab_size max_length rest 0 [].
Proof.
  revert count buf.
  induction pre as [|q pre IH]; intros count buf Hc Hlen Hne Hout;
    [contradiction|].
  simpl in Hlen |- *.
  destruct pre as [|q' pre'].
  - simpl in Hlen.
    destruct (Nat.ltb_spec count (BATCH_SAMPLES_NUMBER p - 1)); [lia|].
    rewrite Hout. reflexivity.
  - destruct (Nat.ltb_spec count (BATCH_SAMPLES_NUMBER p - 1));
      [|simpl in Hlen; lia].
    apply IH.
    + rewrite length_app. simpl. lia.
    + lia.
    + discriminate.
    + rewrite <- app_assoc. exact Hout.
Qed.

Lemma batch_pass_chunks_fuel p vocab_size max_length fuel pairs :
  1 <= BATCH_SAMPLES_NUMBER p -> 1 <= max_length ->
  full_batch_ok p vocab_size ->
  Forall (fun s => s <> [] /\ last s 0 <= vocab_size /\ int32_tokens s)
         pairs ->
  length pairs <= fuel ->
  batch_pass p vocab_size max_length pairs 0 []
  = map (fun b => Yield (padded_inputs max_length b)
                        (one_hot_targets vocab_size b))
        (chunks (BATCH_SAMPLES_NUMBER p) fuel pairs).
Proof.
  intros HB Hm Hmem. revert pairs.
  induction fuel as [|fuel IH]; intros pairs Hp Hl.
  - destruct pairs; [reflexivity|simpl in Hl; lia].
  - simpl chunks.
    destruct (Nat.leb_spec (BATCH_SAMPLES_NUMBER p) (length pairs)) as [Hle|Hlt].
    + destruct (Forall_firstn_skipn _ (BATCH_SAMPLES_NUMBER p) _ Hp) as [Hf Hs].
      assert (Hfl : length (firstn (BATCH_SAMPLES_NUMBER p) pairs)
                    = BATCH_SAMPLES_NUMBER p) by (rewrite length_firstn; lia).
      rewrite <- (firstn_skipn (BATCH_SAMPLES_NUMBER p) pairs) at 1.
      rewrite (batch_pass_fill p vocab_size max_length _ _ 0 []
                 (padded_inputs max_length (firstn (BATCH_SAMPLES_NUMBER p) pairs))
                 (one_hot_targets vocab_size (firstn (BATCH_SAMPLES_NUMBER p) pairs))).
      * simpl. f_equal. apply IH; [exact Hs|].
        rewrite length_skipn. lia.
      * reflexivity.
      * simpl. exact Hfl.
      * intros E. rewrite E in Hfl. simpl in Hfl. lia.
      * apply process_format_batch; [exact Hm|exact Hf|].
        simpl. rewrite Hfl. exact Hmem.
    + apply batch_pass_short. simpl. lia.
Qed.

Lemma chunks_length {A} (B fuel : nat) (l : list A) :
  1 <= B -> length l <= fuel -> length (chunks B fuel l) = length l / B.
Proof.
  intros HB. revert l; induction fuel as [|fuel IH]; intros l Hl.
  - destruct l; [simpl; rewrite Nat.Div0.div_0_l; reflexivity|simpl in Hl; lia].
  - simpl. destruct (Nat.leb_spec B (length l)) as [Hle|Hlt].
    + simpl. rewrite IH by (rewrite length_skipn; lia).
      rewrite length_skipn.
      replace (length l) with ((length l - B) + 1 * B) at 2 by lia.
      rewrite Nat.div_add by lia. lia.
    + symmetry. apply Nat.div_small. exact Hlt.
Qed.

Lemma chunks_concat {A} (B fuel : nat) (l : list A) :
  1 <= B -> length l <= fuel ->
  concat (chunks B fuel l) = firstn (B * (length l / B)) l.
Proof.
  intros HB. revert l; induction fuel as [|fuel IH]; intros l Hl.
  - destruct l; [simpl; rewrite firstn_nil; reflexivity|simpl in Hl; lia].
  - simpl. destruct (Nat.leb_spec B (length l)) as [Hle|Hlt].
    + simpl. rewrite IH by (rewrite length_skipn; lia).
      rewrite length_skipn.
      replace (length l / B) with ((length l - B) / B + 1).
      * rewrite Nat.mul_add_distr_l, Nat.mul_1_r, Nat.add_comm, firstn_plus.
        reflexivity.
      * replace (length l) with ((length l - B) + 1 * B) at 2 by lia.
        rewrite Nat.div_add by lia. reflexivity.
    + rewrite Nat.div_small by exact Hlt. rewrite Nat.mul_0_r. reflexivity.
Qed.

(** With a batch size of at least 1, [max_length >= 1], a full batch under
    the ceiling and non-empty pairs whose tokens fit in an int32 and whose
    target tokens are at most [vocab_size], one
    pass over [n] pairs yields exactly [n / BATCH_SAMPLES_NUMBER] batches,
    one per consecutive group of [BATCH_SAMPLES_NUMBER] pairs in order; the
    last [n mod BATCH_SAMPLES_NUMBER] pairs are dropped. *)
Theorem batch_pass_batches p vocab_size max_length pairs
        (HB : 1 <= BATCH_SAMPLES_NUMBER p) (Hm : 1 <= max_length)
        (Hmem : full_batch_ok p vocab_size)
        (Hpairs : Forall (fun s => s <> [] /\ last s 0 <= vocab_size
                                   /\ int32_tokens s) pairs) :
  batch_pass p vocab_size max_length pairs 0 []
  = map (fun b => Yield (padded_inputs max_length b)
                        (one_hot_targets vocab_size b))
        (batches_of (BATCH_SAMPLES_NUMBER p) pairs)
  /\ length (batches_of (BATCH_SAMPLES_NUMBER p) pairs)
     = length pairs / BATCH_SAMPLES_NUMBER p
  /\ concat (batches_of (BATCH_SAMPLES_NUMBER p) pairs)
     = firstn (length pairs - length pairs mod BATCH_SAMPLES_NUMBER p) pairs.
Proof.
  unfold batches_of. split; [|split].
  - apply batch_pass_chunks_fuel; auto.
  - apply chunks_length; auto.
  - rewrite chunks_concat by auto. f_equal.
    rewrite (Nat.div_mod_eq (length pairs) (BATCH_SAMPLES_NUMBER p)) at 2. lia.
Qed.

Lemma batch_pass_batches_witness :
  batch_pass scenario_parameters 7 4 [[1; 2]; [3; 4]; [3; 4; 5]; [6; 7]] 0 []
  = map (fun b => Yield (padded_inputs 4 b) (one_hot_targets 7 b))
        (batches_of 3 [[1; 2]; [3; 4]; [3; 4; 5]; [6; 7]])
  /\ length (batches_of 3 [[1; 2]; [3; 4]; [3; 4; 5]; [6; 7]]) = 4 / 3
  /\ concat (batches_of 3 [[1; 2]; [3; 4]; [3; 4; 5]; [6; 7]])
     = firstn (4 - 4 mod 3) [[1; 2]; [3; 4]; [3; 4; 5]; [6; 7]].
Proof.
  apply (batch_pass_batches scenario_parameters 7 4
           [[1; 2]; [3; 4]; [3; 4; 5]; [6; 7]]).
  - simpl. lia.
  - lia.
  - vm_compute. discriminate.
  - repeat constructor; try discriminate; simpl; lia.
Defined.

(** *** Passes over an unchanged corpus *)

Lemma existsb_abrupt_yields (f : list (list nat) -> event) (bs : list (list (list nat))) :
  (forall b, abrupt (f b) = false) -> existsb abrupt (map f bs) = false.
Proof.
  intros Hf. induction bs as [|b bs IH]; [reflexivity|].
  simpl. rewrite Hf, IH. reflexivity.
Qed.

(** When every file of every scan can be read, the generator with its text
    source is the generator over the documents read. *)
Lemma generate_batch_samples_reading_ok p encode fs_at read_at path
      vocab_size max_length fuel k (texts_at : nat -> list document) :
  (forall j, Forall2 (fun f t => read_at j f = Some t)
                     (get_filenames_under_path (fs_at j) path) (texts_at j)) ->
  generate_batch_samples_reading p encode fs_at read_at path vocab_size
    max_length fuel k
  = generate_batch_samples_from_corpus p encode texts_at vocab_size
      max_length fuel k.
Proof.
  intros Hread. revert k; induction fuel as [|fuel IH]; intros k; [reflexivity|].
  cbn [generate_batch_samples_reading generate_batch_samples_from_corpus].
  unfold generate_text_from_corpus. rewrite (read_files_ok _ _ _ (Hread k)).
  destruct (existsb abrupt _); [reflexivity|]. rewrite IH. reflexivity.
Qed.

Lemma one_pass_batches p encode texts vocab_size max_length :
  1 <= BATCH_SAMPLES_NUMBER p -> 1 <= max_length -> full_batch_ok p vocab_size ->
  Forall (fun s => last s 0 <= vocab_size /\ int32_tokens s)
         (generate_input_output_pair_from_corpus encode texts) ->
  batch_pass p vocab_size max_length
    (generate_input_output_pair_from_corpus encode texts) 0 []
  = map (fun b => Yield (padded_inputs max_length b)
                        (one_hot_targets vocab_size b))
        (batches_of (BATCH_SAMPLES_NUMBER p)
                    (generate_input_output_pair_from_corpus encode texts)).
Proof.
  intros HB Hm Hmem Htok. unfold batches_of.
  apply batch_pass_chunks_fuel; auto.
  apply Forall_forall. intros s Hs. split.
  - exact (proj1 (Forall_forall _ _) (pairs_nonempty encode texts) s Hs).
  - exact (proj1 (Forall_forall _ _) Htok s Hs).
Qed.

(** On a corpus directory that does not change between scans and whose
    files can all be read, with a batch size of at least 1,
    [max_length >= 1], a full batch under the ceiling and pairs whose tokens
    fit in an int32 and whose target tokens are at most [vocab_size], the
    generator never stops: pass after pass it yields the same batches,
    those of one pass. *)
Theorem generate_batch_samples_cycles p encode fs read_file path texts
        vocab_size max_length fuel k
        (HB : 1 <= BATCH_SAMPLES_NUMBER p) (Hm : 1 <= max_length)
        (Hmem : full_batch_ok p vocab_size)
        (Hread : Forall2 (fun f t => read_file f = Some t)
                         (get_filenames_under_path fs path) texts)
        (Htok : Forall (fun s => last s 0 <= vocab_size /\ int32_tokens s)
                       (generate_input_output_pair_from_corpus encode texts)) :
  let one_pass :=
    map (fun b => Yield (padded_inputs max_length b)
                        (one_hot_targets vocab_size b))
        (batches_of (BATCH_SAMPLES_NUMBER p)
                    (generate_input_output_pair_from_corpus encode texts)) in
  generate_batch_samples_reading p encode (fun _ => fs) (fun _ => read_file)
    path vocab_size max_length fuel k
  = concat (repeat one_pass fuel).
Proof.
  intros one_pass.
  rewrite (generate_batch_samples_reading_ok _ _ _ _ _ _ _ _ _ (fun _ => texts))
    by (intros j; exact Hread).
  pose proof (one_pass_batches p encode texts vocab_size max_length
                HB Hm Hmem Htok) as Hpass.
  fold one_pass in Hpass.
  revert k; induction fuel as [|fuel IH]; intros k; [reflexivity|].
  simpl. rewrite Hpass.
  replace (existsb abrupt one_pass) with false
    by (symmetry; apply existsb_abrupt_yields; reflexivity).
  rewrite IH. reflexivity.
Qed.

Lemma generate_batch_samples_cycles_witness :
  generate_batch_samples_reading scenario_parameters scenario_encode
    (fun _ => scenario_fs) (fun _ => scenario_read_file) "corpus" 7 4 3 0
  = concat (repeat
      (map (fun b => Yield (padded_inputs 4 b) (one_hot_targets 7 b))
           (batches_of 3 (generate_input_output_pair_from_corpus
                            scenario_encode (scenario_corpus 0)))) 3).
Proof.
  apply (generate_batch_samples_cycles scenario_parameters scenario_encode
           scenario_fs scenario_read_file "corpus" (scenario_corpus 0)
           7 4 3 0).
  - simpl. lia.
  - lia.
  - vm_compute. discriminate.
  - vm_compute. repeat constructor.
  - match goal with
    | |- Forall _ ?l => let l' := eval vm_compute in l in change l with l'
    end.
    repeat constructor; lia.
Defined.

(** A file of the scan that cannot be read ends the generator: under the
    same conditions on the files before it, the first pass yields the
    batches of their pairs and then raises. *)
Theorem generate_batch_samples_read_error p encode fs read_file path
        pre f post texts vocab_size max_length fuel k
        (HB : 1 <= BATCH_SAMPLES_NUMBER p) (Hm : 1 <= max_length)
        (Hmem : full_batch_ok p vocab_size)
        (Hnames : get_filenames_under_path fs path = pre ++ f :: post)
        (Hpre : Forall2 (fun f t => read_file f = Some t) pre texts)
        (Hf : read_file f = None)
        (Htok : Forall (fun s => last s 0 <= vocab_size /\ int32_tokens s)
                       (generate_input_output_pair_from_corpus encode texts)) :
  generate_batch_samples_reading p encode (fun _ => fs) (fun _ => read_file)
    path vocab_size max_length (S fuel) k
  = map (fun b => Yield (padded_inputs max_length b)
                        (one_hot_targets vocab_size b))
        (batches_of (BATCH_SAMPLES_NUMBER p)
                    (generate_input_output_pair_from_corpus encode texts))
    ++ [Raise].
Proof.
  cbn [generate_batch_samples_reading]. unfold generate_text_from_corpus.
  rewrite Hnames, (read_files_raise _ _ _ _ _ Hpre Hf).
  rewrite (one_pass_batches p encode texts vocab_size max_length HB Hm Hmem Htok).
  rewrite existsb_abrupt_yields by reflexivity. reflexivity.
Qed.

Lemma generate_batch_samples_read_error_witness :
  generate_batch_samples_reading scenario_parameters scenario_encode
    (fun _ => scenario_fs)
    (fun _ f => if String.eqb f "corpus/b.txt" then None
                else scenario_read_file f)
    "corpus" 7 4 (S 2) 0
  = map (fun b => Yield (padded_inputs 4 b) (one_hot_targets 7 b))
        (batches_of 3 (generate_input_output_pair_from_corpus
                         scenario_encode [nth 0 (scenario_corpus 0) []]))
    ++ [Raise].
Proof.
  apply (generate_batch_samples_read_error scenario_parameters scenario_encode
           scenario_fs (fun f => if String.eqb f "corpus/b.txt" then None
                                 else scenario_read_file f)
           "corpus" ["corpus/a.txt"%string] "corpus/b.txt"%string []
           [nth 0 (scenario_corpus 0) []] 7 4 2 0).
  - simpl. lia.
  - lia.
  - vm_compute. discriminate.
  - reflexivity.
  - repeat constructor.
  - reflexivity.
  - match goal with
    | |- Forall _ ?l => let l' := eval vm_compute in l in change l with l'
    end.
    repeat constructor; lia.
Defined.
